(** * Hermes bytecode file format (include/hermes/BCGen/HBC/BytecodeFileFormat.h)

    A shallow embedding of the records of the bytecode container format:
    the compact and full function headers, the compact string table entry,
    the file header and the population of section views from a buffer.

    Conventions.  A C++ unsigned integer of width [w] is a [Z] in
    [0, 2^w); every store into a narrower location writes the wrap-around
    out ([store]).  An [assert] of the source is a failure of the embedded
    function: constructors that assert return an [option]. *)

From Stdlib Require Import ZArith List Bool Lia.
From Stdlib.Strings Require Import Byte.
Import ListNotations.
Open Scope Z_scope.

(** ** Fixed-width integers *)

(** [uint w v]: [v] is a value of the unsigned type of [w] bits. *)
Definition uint (w v : Z) : Prop := 0 <= v < 2 ^ w.

(** Storing [v] in a location of [bits] bits (a bit-field, or a narrower
    integer type) keeps the low [bits] bits. *)
Definition store (bits v : Z) : Z := v mod 2 ^ bits.

(** The value of the signed type of [bits] bits with the same low bits. *)
Definition signed (bits v : Z) : Z :=
  let u := store bits v in
  if u <? 2 ^ (bits - 1) then u else u - 2 ^ bits.

(** ** Magic numbers and version (lines 22-34) *)

Definition MAGIC : Z := 0x1F1903C103BC1FC6.

(** [~] on a [uint64_t]. *)
Definition not64 (v : Z) : Z := store 64 (Z.lnot v).

Definition DELTA_MAGIC : Z := not64 MAGIC.

Definition BYTECODE_VERSION : Z := 41.

Definition PROPERTY_CACHING_DISABLED : Z := 0.

Inductive BytecodeForm : Type :=
| Execution
| Delta.

(** ** FunctionHeaderFlag (lines 170-182)

    The union overlays four one-bit members on the byte [flags]; the members
    take the low bits in declaration order. *)
Module FunctionHeaderFlag.

(** The byte [flags] of the union. *)
Definition t : Type := Z.

(** [FunctionHeaderFlag() { flags = 0; }] *)
Definition FunctionHeaderFlag : t := 0.

Definition strictMode (f : t) : bool := Z.testbit f 0.
Definition hasExceptionHandler (f : t) : bool := Z.testbit f 1.
Definition hasDebugInfo (f : t) : bool := Z.testbit f 2.
Definition overflowed (f : t) : bool := Z.testbit f 3.

(** [flags.overflowed = true] *)
Definition set_overflowed (f : t) : t := Z.lor f (Z.shiftl 1 3).

End FunctionHeaderFlag.

(** ** FUNC_HEADER_FIELDS (lines 188-201) *)

Inductive FieldName : Type :=
| f_offset
| f_paramCount
| f_bytecodeSizeInBytes
| f_functionName
| f_infoOffset
| f_frameSize
| f_environmentSize
| f_highestReadCacheIndex
| f_highestWriteCacheIndex.

Definition FieldName_eq_dec (a b : FieldName) : {a = b} + {a <> b}.
Proof. decide equality. Defined.

(** One line [V(api_type, store_type, name, bits)] of the macro; the two
    types are given by their widths. *)
Record FieldDesc : Type := V
  { api_type : Z;
    store_type : Z;
    name : FieldName;
    bits : Z }.

Definition FUNC_HEADER_FIELDS : list FieldDesc :=
  [ (* first word *)
    V 32 32 f_offset 25;
    V 32 32 f_paramCount 7;
    (* second word *)
    V 32 32 f_bytecodeSizeInBytes 15;
    V 32 32 f_functionName 17;
    (* third word *)
    V 32 32 f_infoOffset 25;
    V 32 32 f_frameSize 7;
    (* fourth word, with flags below *)
    V 32 8 f_environmentSize 8;
    V 8 8 f_highestReadCacheIndex 8;
    V 8 8 f_highestWriteCacheIndex 8 ].

(** ** FunctionHeader (lines 206-232) *)
Module FunctionHeader.

Record t : Type := mk
  { offset : Z;
    paramCount : Z;
    bytecodeSizeInBytes : Z;
    functionName : Z;
    infoOffset : Z;
    frameSize : Z;
    environmentSize : Z;
    highestReadCacheIndex : Z;
    highestWriteCacheIndex : Z;
    flags : FunctionHeaderFlag.t }.

(** [large.name] *)
Definition get (n : FieldName) (h : t) : Z :=
  match n with
  | f_offset => offset h
  | f_paramCount => paramCount h
  | f_bytecodeSizeInBytes => bytecodeSizeInBytes h
  | f_functionName => functionName h
  | f_infoOffset => infoOffset h
  | f_frameSize => frameSize h
  | f_environmentSize => environmentSize h
  | f_highestReadCacheIndex => highestReadCacheIndex h
  | f_highestWriteCacheIndex => highestWriteCacheIndex h
  end.

(** Every member holds a value of its API type, the flags a byte. *)
Definition wf (h : t) : Prop :=
  Forall (fun d => uint (api_type d) (get (name d) h)) FUNC_HEADER_FIELDS
  /\ uint 8 (flags h).

(** The public constructor: arguments are converted to the members'
    types, [offset] and [infoOffset] are zero and [flags{}] is the
    default flag byte. *)
Definition FunctionHeader
    (size paramCount frameSize envSize functionNameID
     hiRCacheIndex hiWCacheIndex : Z) : t :=
  {| offset := 0;
     paramCount := store 32 paramCount;
     bytecodeSizeInBytes := store 32 size;
     functionName := store 32 functionNameID;
     infoOffset := 0;
     frameSize := store 32 frameSize;
     environmentSize := store 32 envSize;
     highestReadCacheIndex := store 8 hiRCacheIndex;
     highestWriteCacheIndex := store 8 hiWCacheIndex;
     flags := FunctionHeaderFlag.FunctionHeaderFlag |}.

End FunctionHeader.

(** ** SmallFuncHeader (lines 243-282) *)
Module SmallFuncHeader.

Record t : Type := mk
  { offset : Z;
    paramCount : Z;
    bytecodeSizeInBytes : Z;
    functionName : Z;
    infoOffset : Z;
    frameSize : Z;
    environmentSize : Z;
    highestReadCacheIndex : Z;
    highestWriteCacheIndex : Z;
    flags : FunctionHeaderFlag.t }.

Definition get (n : FieldName) (s : t) : Z :=
  match n with
  | f_offset => offset s
  | f_paramCount => paramCount s
  | f_bytecodeSizeInBytes => bytecodeSizeInBytes s
  | f_functionName => functionName s
  | f_infoOffset => infoOffset s
  | f_frameSize => frameSize s
  | f_environmentSize => environmentSize s
  | f_highestReadCacheIndex => highestReadCacheIndex s
  | f_highestWriteCacheIndex => highestWriteCacheIndex s
  end.

(** Plain member update, before the bit-field's width is applied. *)
Definition put (n : FieldName) (v : Z) (s : t) : t :=
  match n with
  | f_offset =>
      mk v (paramCount s) (bytecodeSizeInBytes s) (functionName s)
         (infoOffset s) (frameSize s) (environmentSize s)
         (highestReadCacheIndex s) (highestWriteCacheIndex s) (flags s)
  | f_paramCount =>
      mk (offset s) v (bytecodeSizeInBytes s) (functionName s)
         (infoOffset s) (frameSize s) (environmentSize s)
         (highestReadCacheIndex s) (highestWriteCacheIndex s) (flags s)
  | f_bytecodeSizeInBytes =>
      mk (offset s) (paramCount s) v (functionName s)
         (infoOffset s) (frameSize s) (environmentSize s)
         (highestReadCacheIndex s) (highestWriteCacheIndex s) (flags s)
  | f_functionName =>
      mk (offset s) (paramCount s) (bytecodeSizeInBytes s) v
         (infoOffset s) (frameSize s) (environmentSize s)
         (highestReadCacheIndex s) (highestWriteCacheIndex s) (flags s)
  | f_infoOffset =>
      mk (offset s) (paramCount s) (bytecodeSizeInBytes s) (functionName s)
         v (frameSize s) (environmentSize s)
         (highestReadCacheIndex s) (highestWriteCacheIndex s) (flags s)
  | f_frameSize =>
      mk (offset s) (paramCount s) (bytecodeSizeInBytes s) (functionName s)
         (infoOffset s) v (environmentSize s)
         (highestReadCacheIndex s) (highestWriteCacheIndex s) (flags s)
  | f_environmentSize =>
      mk (offset s) (paramCount s) (bytecodeSizeInBytes s) (functionName s)
         (infoOffset s) (frameSize s) v
         (highestReadCacheIndex s) (highestWriteCacheIndex s) (flags s)
  | f_highestReadCacheIndex =>
      mk (offset s) (paramCount s) (bytecodeSizeInBytes s) (functionName s)
         (infoOffset s) (frameSize s) (environmentSize s)
         v (highestWriteCacheIndex s) (flags s)
  | f_highestWriteCacheIndex =>
      mk (offset s) (paramCount s) (bytecodeSizeInBytes s) (functionName s)
         (infoOffset s) (frameSize s) (environmentSize s)
         (highestReadCacheIndex s) v (flags s)
  end.

(** Width of the bit-field [n], read off [FUNC_HEADER_FIELDS]. *)
Definition width (n : FieldName) : Z :=
  match find (fun d => if FieldName_eq_dec (name d) n then true else false)
             FUNC_HEADER_FIELDS with
  | Some d => bits d
  | None => 0
  end.

(** [name = v;] on the bit-field [name]. *)
Definition assign (n : FieldName) (v : Z) (this : t) : t :=
  put n (store (width n) v) this.

Definition with_flags (f : FunctionHeaderFlag.t) (this : t) : t :=
  mk (offset this) (paramCount this) (bytecodeSizeInBytes this)
     (functionName this) (infoOffset this) (frameSize this)
     (environmentSize this) (highestReadCacheIndex this)
     (highestWriteCacheIndex this) f.

(** [std::memset(this, 0, sizeof(SmallFuncHeader))] *)
Definition zeroed : t := mk 0 0 0 0 0 0 0 0 0 0.

(** [setLargeHeaderOffset]: the low 16 bits go to [offset], the rest to
    [infoOffset]. *)
Definition setLargeHeaderOffset (largeHeaderOffset : Z) (this : t) : t :=
  let this := with_flags (FunctionHeaderFlag.set_overflowed (flags this)) this in
  let this := assign f_offset (Z.land largeHeaderOffset 0xffff) this in
  assign f_infoOffset (Z.shiftr largeHeaderOffset 16) this.

(** [getLargeHeaderOffset]: asserts the flag, then joins the two fields.
    The shift and the or are done on the promoted bit-fields; the low 32
    bits of their result are the [uint32_t] that is returned. *)
Definition getLargeHeaderOffset (this : t) : option Z :=
  if FunctionHeaderFlag.overflowed (flags this)
  then Some (store 32 (Z.lor (Z.shiftl (infoOffset this) 16) (offset this)))
  else None.

(** One expansion of [CHECK_COPY_FIELD]: [inl] is the early [return],
    [inr] falls through to the next field. *)
Definition CHECK_COPY_FIELD
    (d : FieldDesc) (large : FunctionHeader.t) (this : t) : t + t :=
  if FunctionHeader.get (name d) large >? Z.shiftl 1 (bits d) - 1
  then inl (setLargeHeaderOffset (FunctionHeader.infoOffset large) this)
  else inr (assign (name d) (FunctionHeader.get (name d) large) this).

(** [FUNC_HEADER_FIELDS(CHECK_COPY_FIELD)] *)
Fixpoint copy_fields
    (ds : list FieldDesc) (large : FunctionHeader.t) (this : t) : t + t :=
  match ds with
  | [] => inr this
  | d :: ds' =>
      match CHECK_COPY_FIELD d large this with
      | inl done => inl done
      | inr this' => copy_fields ds' large this'
      end
  end.

(** The constructor.  [None] is the failure of the closing
    [assert(!flags.overflowed)]. *)
Definition SmallFuncHeader (large : FunctionHeader.t) : option t :=
  let this := zeroed in
  let this := with_flags (FunctionHeader.flags large) this in
  match copy_fields FUNC_HEADER_FIELDS large this with
  | inl done => Some done
  | inr this =>
      if FunctionHeaderFlag.overflowed (flags this) then None else Some this
  end.

End SmallFuncHeader.

(** [large] has a field above the largest value of its compact width. *)
Definition exceeds (large : FunctionHeader.t) : Prop :=
  Exists (fun d => FunctionHeader.get (name d) large > 2 ^ bits d - 1)
         FUNC_HEADER_FIELDS.

(** Every field of [large] is within its compact width. *)
Definition fits (large : FunctionHeader.t) : Prop :=
  Forall (fun d => FunctionHeader.get (name d) large <= 2 ^ bits d - 1)
         FUNC_HEADER_FIELDS.

(** ** String table entries (lines 126-168) *)

Module StringTableEntry.

(** Modelled from the spec: the class [StringTableEntry] of
    hermes/Support/StringTableEntry.h, which is not among the sources; an
    entry is what its four accessors return, offset and length being
    [uint32_t]. *)
Record t : Type := mk
  { getOffset : Z;
    getLength : Z;
    isUTF16 : bool;
    isIdentifier : bool }.

Definition wf (e : t) : Prop :=
  uint 32 (getOffset e) /\ uint 32 (getLength e).

End StringTableEntry.

Module SmallStringTableEntry.

Record t : Type := mk
  { isUTF16 : bool;
    isIdentifier : bool;
    offset : Z;    (* uint32_t offset : 22 *)
    length : Z     (* uint32_t length : 8 *) }.

Definition INVALID_OFFSET : Z := Z.shiftl 1 22.
Definition INVALID_LENGTH : Z := Z.shiftl 1 8 - 1.

Definition isOverflowed (this : t) : bool :=
  length this =? INVALID_LENGTH.

(** The constructor.  [None] is the failure of
    [assert(overflowOffset < INVALID_OFFSET)]. *)
Definition SmallStringTableEntry
    (entry : StringTableEntry.t) (overflowOffset : Z) : option t :=
  let isUTF16 := StringTableEntry.isUTF16 entry in
  let isIdentifier := StringTableEntry.isIdentifier entry in
  if (StringTableEntry.getOffset entry <? INVALID_OFFSET)
     && (StringTableEntry.getLength entry <? INVALID_LENGTH)
  then Some (mk isUTF16 isIdentifier
                (store 22 (StringTableEntry.getOffset entry))
                (store 8 (StringTableEntry.getLength entry)))
  else
    if overflowOffset <? INVALID_OFFSET
    then Some (mk isUTF16 isIdentifier
                  (store 22 overflowOffset)
                  (store 8 INVALID_LENGTH))
    else None.

End SmallStringTableEntry.

(** An entry whose offset and length both have an inline encoding. *)
Definition inline_able (entry : StringTableEntry.t) : Prop :=
  StringTableEntry.getOffset entry < 2 ^ 22
  /\ StringTableEntry.getLength entry < 2 ^ 8 - 1.

Module OverflowStringTableEntry.

Record t : Type := mk
  { offset : Z;
    length : Z }.

Definition OverflowStringTableEntry (offset length : Z) : t :=
  mk (store 32 offset) (store 32 length).

End OverflowStringTableEntry.

(** ** Bytes *)

Definition byte_to_Z (b : byte) : Z := Z.of_N (Byte.to_N b).

Definition byte_of_Z (v : Z) : byte :=
  match Byte.of_N (Z.to_N (v mod 256)) with
  | Some b => b
  | None => x00
  end.

(** Little-endian image of [v] on [n] bytes. *)
Fixpoint encodeLE (n : nat) (v : Z) : list byte :=
  match n with
  | O => []
  | S n' => byte_of_Z v :: encodeLE n' (v / 256)
  end.

(** Value of the bytes [bs], little-endian. *)
Fixpoint decodeLE (bs : list byte) : Z :=
  match bs with
  | [] => 0
  | b :: bs' => byte_to_Z b + 256 * decodeLE bs'
  end.

(** ** BytecodeFileHeader (lines 56-124) *)

(** Modelled from the spec: the constant [SHA1_NUM_BYTES] of
    hermes/Support/SHA1.h, which is not among the sources; the source hash
    is 20 bytes. *)
Definition SHA1_NUM_BYTES : nat := 20.

Module BytecodeOptions.

(** The byte [_flags] of the union. *)
Definition t : Type := Z.

(** [BytecodeOptions() : _flags(0) {}] *)
Definition BytecodeOptions : t := 0.

Definition staticBuiltins (o : t) : bool := Z.testbit o 0.

End BytecodeOptions.

Inductive HeaderMember : Type :=
| h_magic
| h_version
| h_sourceHash
| h_fileLength
| h_globalCodeIndex
| h_functionCount
| h_stringCount
| h_identifierCount
| h_stringTableBytes
| h_stringStorageSize
| h_regExpCount
| h_regExpStorageSize
| h_arrayBufferSize
| h_objKeyBufferSize
| h_objValueBufferSize
| h_cjsModuleCount
| h_debugInfoOffset
| h_options
| h_padding.

Definition HeaderMember_eq_dec (a b : HeaderMember) : {a = b} + {a <> b}.
Proof. decide equality. Defined.

Module BytecodeFileHeader.

Record t : Type := mk
  { magic : Z;
    version : Z;
    sourceHash : list byte;
    fileLength : Z;
    globalCodeIndex : Z;
    functionCount : Z;
    stringCount : Z;
    identifierCount : Z;
    stringTableBytes : Z;
    stringStorageSize : Z;
    regExpCount : Z;
    regExpStorageSize : Z;
    arrayBufferSize : Z;
    objKeyBufferSize : Z;
    objValueBufferSize : Z;
    cjsModuleCount : Z;     (* int32_t *)
    debugInfoOffset : Z;
    options : BytecodeOptions.t;
    padding : list byte }.

(** The members in declaration order with their sizes in bytes.  The
    struct is declared between [LLVM_PACKED_START] and [LLVM_PACKED_END]:
    members follow each other without gaps. *)
Definition members : list (HeaderMember * nat) :=
  [ (h_magic, 8%nat);
    (h_version, 4%nat);
    (h_sourceHash, SHA1_NUM_BYTES);
    (h_fileLength, 4%nat);
    (h_globalCodeIndex, 4%nat);
    (h_functionCount, 4%nat);
    (h_stringCount, 4%nat);
    (h_identifierCount, 4%nat);
    (h_stringTableBytes, 4%nat);
    (h_stringStorageSize, 4%nat);
    (h_regExpCount, 4%nat);
    (h_regExpStorageSize, 4%nat);
    (h_arrayBufferSize, 4%nat);
    (h_objKeyBufferSize, 4%nat);
    (h_objValueBufferSize, 4%nat);
    (h_cjsModuleCount, 4%nat);
    (h_debugInfoOffset, 4%nat);
    (h_options, 1%nat);
    (h_padding, 7%nat) ].

(** [sizeof(BytecodeFileHeader)] *)
Definition sizeof : nat :=
  fold_right (fun m acc => (snd m + acc)%nat) 0%nat members.

Fixpoint offset_in (ms : list (HeaderMember * nat)) (m : HeaderMember) : nat :=
  match ms with
  | [] => 0%nat
  | (m', sz) :: ms' =>
      if HeaderMember_eq_dec m' m then 0%nat else (sz + offset_in ms' m)%nat
  end.

(** [offsetof(BytecodeFileHeader, m)] *)
Definition offsetof (m : HeaderMember) : nat := offset_in members m.

Definition size_of_member (m : HeaderMember) : nat :=
  match find (fun p => if HeaderMember_eq_dec (fst p) m then true else false)
             members with
  | Some p => snd p
  | None => 0%nat
  end.

(** [std::copy(first, last, dst)] into an array: the copied elements
    replace a prefix of [dst]. *)
Definition std_copy (src dst : list byte) : list byte :=
  src ++ skipn (List.length src) dst.

(** [std::fill(first, first + n, v)] over a whole array of [n] bytes. *)
Definition std_fill (n : nat) (v : byte) : list byte := repeat v n.

(** The constructor: [sourceHash()] zeroes the array before the body
    copies the digest into it; the body then zeroes the padding. *)
Definition BytecodeFileHeader
    (magic version : Z) (sourceHash : list byte)
    (fileLength globalCodeIndex functionCount stringCount identifierCount
     stringTableBytes stringStorageSize regExpCount regExpStorageSize
     arrayBufferSize objKeyBufferSize objValueBufferSize
     cjsModuleCount debugInfoOffset : Z)
    (options : BytecodeOptions.t) : t :=
  {| magic := store 64 magic;
     version := store 32 version;
     sourceHash := std_copy sourceHash (repeat x00 SHA1_NUM_BYTES);
     fileLength := store 32 fileLength;
     globalCodeIndex := store 32 globalCodeIndex;
     functionCount := store 32 functionCount;
     stringCount := store 32 stringCount;
     identifierCount := store 32 identifierCount;
     stringTableBytes := store 32 stringTableBytes;
     stringStorageSize := store 32 stringStorageSize;
     regExpCount := store 32 regExpCount;
     regExpStorageSize := store 32 regExpStorageSize;
     arrayBufferSize := store 32 arrayBufferSize;
     objKeyBufferSize := store 32 objKeyBufferSize;
     objValueBufferSize := store 32 objValueBufferSize;
     cjsModuleCount := signed 32 cjsModuleCount;
     debugInfoOffset := store 32 debugInfoOffset;
     options := options;
     padding := std_fill 7 x00 |}.

(** The bytes of the member [m] of [h], little-endian. *)
Definition member_bytes (h : t) (m : HeaderMember) : list byte :=
  match m with
  | h_magic => encodeLE 8 (magic h)
  | h_version => encodeLE 4 (version h)
  | h_sourceHash => sourceHash h
  | h_fileLength => encodeLE 4 (fileLength h)
  | h_globalCodeIndex => encodeLE 4 (globalCodeIndex h)
  | h_functionCount => encodeLE 4 (functionCount h)
  | h_stringCount => encodeLE 4 (stringCount h)
  | h_identifierCount => encodeLE 4 (identifierCount h)
  | h_stringTableBytes => encodeLE 4 (stringTableBytes h)
  | h_stringStorageSize => encodeLE 4 (stringStorageSize h)
  | h_regExpCount => encodeLE 4 (regExpCount h)
  | h_regExpStorageSize => encodeLE 4 (regExpStorageSize h)
  | h_arrayBufferSize => encodeLE 4 (arrayBufferSize h)
  | h_objKeyBufferSize => encodeLE 4 (objKeyBufferSize h)
  | h_objValueBufferSize => encodeLE 4 (objValueBufferSize h)
  | h_cjsModuleCount => encodeLE 4 (cjsModuleCount h)
  | h_debugInfoOffset => encodeLE 4 (debugInfoOffset h)
  | h_options => encodeLE 1 (options h)
  | h_padding => padding h
  end.

(** The header as it is written to a file: the members' bytes in
    declaration order. *)
Definition serialize (h : t) : list byte :=
  flat_map (fun m => member_bytes h (fst m)) members.

End BytecodeFileHeader.

(** [sizeof(SmallFuncHeader)]: the bit-fields of [FUNC_HEADER_FIELDS]
    followed by the flag byte, packed. *)
Definition SmallFuncHeader_bits : Z :=
  fold_right (fun d acc => bits d + acc) 8 FUNC_HEADER_FIELDS.

Definition sizeof_SmallFuncHeader : Z := SmallFuncHeader_bits / 8.

(** [sizeof(SmallStringTableEntry)]: 1 + 1 + 22 + 8 bits. *)
Definition sizeof_SmallStringTableEntry : Z := (1 + 1 + 22 + 8) / 8.

(** [sizeof(OverflowStringTableEntry)]: two [uint32_t]. *)
Definition sizeof_OverflowStringTableEntry : Z := 4 + 4.

(** ** BytecodeFileFields (lines 330-395) *)

(** An [llvm::ArrayRef<T>] into the buffer: the data pointer as a byte
    offset from the start of the buffer ([None] is the null pointer of a
    default-constructed reference), the number of elements and
    [sizeof(T)]. *)
Record ArrayRef : Type := mkArrayRef
  { Data : option Z;
    Length : Z;
    ElemSize : Z }.

(** A default-constructed [ArrayRef<T>]. *)
Definition emptyRef (elemSize : Z) : ArrayRef := mkArrayRef None 0 elemSize.

Definition populated (a : ArrayRef) : bool :=
  match Data a with
  | Some _ => true
  | None => false
  end.

Module BytecodeFileFields.

Record t : Type := mk
  { header : option Z;
    functionHeaders : ArrayRef;
    stringTableEntries : ArrayRef;
    identifierHashes : ArrayRef;
    stringTableOverflowEntries : ArrayRef;
    stringStorage : ArrayRef;
    arrayBuffer : ArrayRef;
    objKeyBuffer : ArrayRef;
    objValueBuffer : ArrayRef;
    regExpTable : ArrayRef;
    regExpStorage : ArrayRef;
    cjsModuleTable : ArrayRef;
    cjsModuleTableStatic : ArrayRef }.

End BytecodeFileFields.

(** The sections of a file, in the order of the population pass. *)
Inductive Section_ : Type :=
| s_header
| s_functionHeaders
| s_stringTableEntries
| s_identifierHashes
| s_stringTableOverflowEntries
| s_stringStorage
| s_arrayBuffer
| s_objKeyBuffer
| s_objValueBuffer
| s_regExpTable
| s_regExpStorage
| s_cjsModuleTable
| s_cjsModuleTableStatic.

(** Modelled from the spec: the error reported through [outError] by
    [populateFromBuffer], whose body is not among the sources; the single
    family [FormatError] with its five sub-reasons, a truncation naming the
    section it was found at. *)
Inductive FormatError : Type :=
| MagicMismatch
| VersionMismatch
| TruncatedBuffer (at_ : Section_)
| InconsistentSentinel
| InvalidOffsetReconstruction.

(** Modelled from the spec: the expected magic of a form, as
    [populateFromBuffer] (not among the sources) compares it; the comments
    on [MAGIC] and [DELTA_MAGIC] give the same assignment. *)
Definition magicFor (form : BytecodeForm) : Z :=
  match form with
  | Execution => MAGIC
  | Delta => DELTA_MAGIC
  end.

(** *** The population pass as a state and error monad

    The state is the cursor of the pass and the list of the buffer indices
    whose bytes have been interpreted so far, oldest first. *)
Record PassState : Type := mkState
  { cursor : Z;
    interpreted : list Z }.

Definition Pass (A : Type) : Type := PassState -> (FormatError + A) * PassState.

Definition ret {A : Type} (a : A) : Pass A := fun st => (inr a, st).

Definition fail {A : Type} (e : FormatError) : Pass A := fun st => (inl e, st).

Definition bind {A B : Type} (m : Pass A) (k : A -> Pass B) : Pass B :=
  fun st =>
    match m st with
    | (inl e, st') => (inl e, st')
    | (inr a, st') => k a st'
    end.

Notation "x <- m ;; k" := (bind m (fun x => k))
  (at level 61, m at next level, right associativity).

Definition getCursor : Pass Z := fun st => (inr (cursor st), st).

Definition advance (n : Z) : Pass unit :=
  fun st => (inr tt, mkState (cursor st + n) (interpreted st)).

(** The byte of [bytes] at index [i]; the index is recorded. *)
Definition loadByte (bytes : list byte) (i : Z) : Pass Z :=
  fun st =>
    (inr (byte_to_Z (nth (Z.to_nat i) bytes x00)),
     mkState (cursor st) (interpreted st ++ [i])).

(** The [n] bytes from index [i] on, as a little-endian unsigned value. *)
Fixpoint loadLE (bytes : list byte) (i : Z) (n : nat) : Pass Z :=
  match n with
  | O => ret 0
  | S n' =>
      b <- loadByte bytes i ;;
      rest <- loadLE bytes (i + 1) n' ;;
      ret (b + 256 * rest)
  end.

(** The integer member [m] of the header at the start of [bytes], without
    the bookkeeping of the pass. *)
Definition member (bytes : list byte) (m : HeaderMember) : Z :=
  decodeLE (firstn (BytecodeFileHeader.size_of_member m)
                   (skipn (BytecodeFileHeader.offsetof m) bytes)).

(** [header->m] *)
Definition loadMember (bytes : list byte) (m : HeaderMember) : Pass Z :=
  loadLE bytes (Z.of_nat (BytecodeFileHeader.offsetof m))
         (BytecodeFileHeader.size_of_member m).

Section Populate.

(** [sizeof(RegExpTableEntry)]; the type is declared in
    hermes/Support/RegExpSerialization.h, which is not among the
    sources. *)
Variable sizeof_RegExpTableEntry : Z.

(** Modelled from the spec: one section of the pass.  The extent is the
    declared count times the element size; it has to lie within the bytes
    that remain; the view starts at the cursor, which then moves past the
    extent.  The spec names no alignment for any section, so the cursor is
    not rounded. *)
Definition visit
    (bytes : list byte) (sec : Section_) (elemSize count : Z) : Pass ArrayRef :=
  cur <- getCursor ;;
  let extent := count * elemSize in
  if extent >? Z.of_nat (List.length bytes) - cur
  then fail (TruncatedBuffer sec)
  else
    _ <- advance extent ;;
    ret (mkArrayRef (Some cur) count elemSize).

(** Modelled from the spec: the module table.  A negative
    [cjsModuleCount] selects the flat array of function indices, of as
    many entries as the magnitude; any other count selects the array of
    (moduleId, functionIndex) pairs.  The view that is not selected stays
    default-constructed. *)
Definition visitCJSModuleTable
    (bytes : list byte) : Pass (ArrayRef * ArrayRef) :=
  raw <- loadMember bytes h_cjsModuleCount ;;
  let cjsModuleCount := signed 32 raw in
  if cjsModuleCount <? 0
  then
    static <- visit bytes s_cjsModuleTableStatic 4 (- cjsModuleCount) ;;
    ret (emptyRef (4 + 4), static)
  else
    table <- visit bytes s_cjsModuleTable (4 + 4) cjsModuleCount ;;
    ret (table, emptyRef 4).

(** Modelled from the spec: the sections that follow the header, in the
    canonical order, each sized from the member of the header that
    declares it.  [stringTableBytes] counts the compact entries and the
    overflow entries together (comment on the member, line 69). *)
Definition visitSections (bytes : list byte) : Pass BytecodeFileFields.t :=
  functionCount <- loadMember bytes h_functionCount ;;
  functionHeaders <-
    visit bytes s_functionHeaders sizeof_SmallFuncHeader functionCount ;;
  stringCount <- loadMember bytes h_stringCount ;;
  stringTableEntries <-
    visit bytes s_stringTableEntries sizeof_SmallStringTableEntry stringCount ;;
  identifierCount <- loadMember bytes h_identifierCount ;;
  identifierHashes <- visit bytes s_identifierHashes 4 identifierCount ;;
  stringTableBytes <- loadMember bytes h_stringTableBytes ;;
  let overflowBytes :=
    stringTableBytes - stringCount * sizeof_SmallStringTableEntry in
  if overflowBytes <? 0
  then fail (TruncatedBuffer s_stringTableOverflowEntries)
  else
  stringTableOverflowEntries <-
    visit bytes s_stringTableOverflowEntries sizeof_OverflowStringTableEntry
          (overflowBytes / sizeof_OverflowStringTableEntry) ;;
  stringStorageSize <- loadMember bytes h_stringStorageSize ;;
  stringStorage <- visit bytes s_stringStorage 1 stringStorageSize ;;
  arrayBufferSize <- loadMember bytes h_arrayBufferSize ;;
  arrayBuffer <- visit bytes s_arrayBuffer 1 arrayBufferSize ;;
  objKeyBufferSize <- loadMember bytes h_objKeyBufferSize ;;
  objKeyBuffer <- visit bytes s_objKeyBuffer 1 objKeyBufferSize ;;
  objValueBufferSize <- loadMember bytes h_objValueBufferSize ;;
  objValueBuffer <- visit bytes s_objValueBuffer 1 objValueBufferSize ;;
  regExpCount <- loadMember bytes h_regExpCount ;;
  regExpTable <- visit bytes s_regExpTable sizeof_RegExpTableEntry regExpCount ;;
  regExpStorageSize <- loadMember bytes h_regExpStorageSize ;;
  regExpStorage <- visit bytes s_regExpStorage 1 regExpStorageSize ;;
  modules <- visitCJSModuleTable bytes ;;
  ret (BytecodeFileFields.mk
         (Some 0) functionHeaders stringTableEntries identifierHashes
         stringTableOverflowEntries stringStorage arrayBuffer objKeyBuffer
         objValueBuffer regExpTable regExpStorage (fst modules) (snd modules)).

(** Modelled from the spec: header and form validation followed by the
    pass over the sections.  A buffer shorter than the header is
    truncated; then the magic is compared with the one of the expected
    form and the version with [BYTECODE_VERSION], before any other byte
    is interpreted. *)
Definition populate (bytes : list byte) (form : BytecodeForm)
  : Pass BytecodeFileFields.t :=
  if Z.of_nat (List.length bytes) <? Z.of_nat BytecodeFileHeader.sizeof
  then fail (TruncatedBuffer s_header)
  else
    magic <- loadMember bytes h_magic ;;
    if negb (magic =? magicFor form)
    then fail MagicMismatch
    else
      version <- loadMember bytes h_version ;;
      if negb (version =? BYTECODE_VERSION)
      then fail VersionMismatch
      else
        _ <- advance (Z.of_nat BytecodeFileHeader.sizeof) ;;
        visitSections bytes.

(** Modelled from the spec: [populateFromBuffer], whose body is not among
    the sources.  The result is the fields or the error, together with
    the indices of the bytes the pass interpreted. *)
Definition populateFromBuffer (bytes : list byte) (form : BytecodeForm)
  : (FormatError + BytecodeFileFields.t) * list Z :=
  let r := populate bytes form (mkState 0 []) in
  (fst r, interpreted (snd r)).

End Populate.

(** ** Bookkeeping of the pass *)

(** Indices of the [n] bytes from [k] on. *)
Definition indices (k n : nat) : list Z := map Z.of_nat (seq k n).

(** Indices of the bytes of the header member [m]. *)
Definition member_indices (m : HeaderMember) : list Z :=
  indices (BytecodeFileHeader.offsetof m) (BytecodeFileHeader.size_of_member m).

(** [reads P m]: whatever [m] adds to the record of interpreted indices
    satisfies [P]. *)
Definition reads {A : Type} (P : Z -> Prop) (m : Pass A) : Prop :=
  forall st, Forall P (interpreted st) -> Forall P (interpreted (snd (m st))).

(** ** Compact records as stored *)

(** Every bit-field of [s] holds a value of its declared width. *)
Definition in_widths (s : SmallFuncHeader.t) : Prop :=
  forall n, 0 <= SmallFuncHeader.get n s < 2 ^ SmallFuncHeader.width n.

(** [d] is a field whose value in [large] is above its compact width. *)
Definition above (large : FunctionHeader.t) (d : FieldDesc) : Prop :=
  FunctionHeader.get (name d) large > 2 ^ bits d - 1.

(** The fields that [setLargeHeaderOffset] reuses for the offset. *)
Definition reused (n : FieldName) : bool :=
  match n with
  | f_offset | f_infoOffset => true
  | _ => false
  end.

(** Copying the fields [pre] one after the other. *)
Definition copied (large : FunctionHeader.t) (pre : list FieldDesc)
           (this : SmallFuncHeader.t) : SmallFuncHeader.t :=
  fold_left
    (fun s d => SmallFuncHeader.assign (name d)
                                       (FunctionHeader.get (name d) large) s)
    pre this.

(** The value of the integer member [m] of [h]; the two byte arrays have
    none. *)
Definition header_member_value
           (h : BytecodeFileHeader.t) (m : HeaderMember) : option Z :=
  match m with
  | h_magic => Some (BytecodeFileHeader.magic h)
  | h_version => Some (BytecodeFileHeader.version h)
  | h_sourceHash => None
  | h_fileLength => Some (BytecodeFileHeader.fileLength h)
  | h_globalCodeIndex => Some (BytecodeFileHeader.globalCodeIndex h)
  | h_functionCount => Some (BytecodeFileHeader.functionCount h)
  | h_stringCount => Some (BytecodeFileHeader.stringCount h)
  | h_identifierCount => Some (BytecodeFileHeader.identifierCount h)
  | h_stringTableBytes => Some (BytecodeFileHeader.stringTableBytes h)
  | h_stringStorageSize => Some (BytecodeFileHeader.stringStorageSize h)
  | h_regExpCount => Some (BytecodeFileHeader.regExpCount h)
  | h_regExpStorageSize => Some (BytecodeFileHeader.regExpStorageSize h)
  | h_arrayBufferSize => Some (BytecodeFileHeader.arrayBufferSize h)
  | h_objKeyBufferSize => Some (BytecodeFileHeader.objKeyBufferSize h)
  | h_objValueBufferSize => Some (BytecodeFileHeader.objValueBufferSize h)
  | h_cjsModuleCount => Some (BytecodeFileHeader.cjsModuleCount h)
  | h_debugInfoOffset => Some (BytecodeFileHeader.debugInfoOffset h)
  | h_options => Some (BytecodeFileHeader.options h)
  | h_padding => None
  end.

(** ** Sample inputs *)

(** The header of a file with one function, no strings and one statically
    resolved module. *)
Definition resolved_header : BytecodeFileHeader.t :=
  BytecodeFileHeader.BytecodeFileHeader
    MAGIC BYTECODE_VERSION (repeat xff SHA1_NUM_BYTES)
    116 0 1 0 0 0 0 0 0 0 0 0 (-1) 0 BytecodeOptions.BytecodeOptions.

(** That file: the header, one compact function header, one function
    index. *)
Definition resolved_file : list byte :=
  BytecodeFileHeader.serialize resolved_header
  ++ repeat x00 16 ++ encodeLE 4 0.

(** A file with one function and two unresolved modules. *)
Definition unresolved_file : list byte :=
  BytecodeFileHeader.serialize
    (BytecodeFileHeader.BytecodeFileHeader
       MAGIC BYTECODE_VERSION (repeat xff SHA1_NUM_BYTES)
       128 0 1 0 0 0 0 0 0 0 0 0 2 0 BytecodeOptions.BytecodeOptions)
  ++ repeat x00 16 ++ encodeLE 4 7 ++ encodeLE 4 0 ++ encodeLE 4 9 ++ encodeLE 4 0.

(** The header with every field at the largest value of its compact width. *)
Definition largest_compact : FunctionHeader.t :=
  FunctionHeader.mk (2 ^ 25 - 1) (2 ^ 7 - 1) (2 ^ 15 - 1) (2 ^ 17 - 1)
                    (2 ^ 25 - 1) (2 ^ 7 - 1) (2 ^ 8 - 1) (2 ^ 8 - 1) (2 ^ 8 - 1) 5.

(** A header whose frame size does not fit in seven bits. *)
Definition wide_frame : FunctionHeader.t :=
  FunctionHeader.mk 1 2 3 4 0x89ABCDEF 200 4 6 7 0.

(** A strict-mode header with debug info whose parameter count does not fit
    in seven bits. *)
Definition flagged_wide : FunctionHeader.t :=
  FunctionHeader.mk 1 1000 3 4 0xFFFF0001 5 4 6 7 5.

(** A long string far into the storage, and a short one at its start. *)
Definition long_entry : StringTableEntry.t :=
  StringTableEntry.mk 5000000 300 true false.

Definition short_entry : StringTableEntry.t :=
  StringTableEntry.mk 12 7 false true.

(** * Properties *)

(** ** Arithmetic of stores, shifts and masks *)

Lemma store_small (bits v : Z) : 0 <= v < 2 ^ bits -> store bits v = v.
Proof. intros H. unfold store. now apply Z.mod_small. Qed.

Lemma store_range (bits v : Z) : 0 <= bits -> 0 <= store bits v < 2 ^ bits.
Proof.
  intros H. unfold store. apply Z.mod_pos_bound. now apply Z.pow_pos_nonneg.
Qed.

Lemma low16_range (x : Z) : 0 <= Z.land x 0xffff < 2 ^ 16.
Proof.
  change 0xffff with (Z.ones 16). rewrite Z.land_ones by lia.
  apply Z.mod_pos_bound. lia.
Qed.

Lemma high16_range (x : Z) : uint 32 x -> 0 <= Z.shiftr x 16 < 2 ^ 16.
Proof.
  unfold uint. intros H. rewrite Z.shiftr_div_pow2 by lia.
  split.
  - apply Z.div_pos; lia.
  - apply Z.div_lt_upper_bound; lia.
Qed.

(** Joining the two halves of a 32-bit value gives the value back. *)
Lemma join_split (x : Z) :
  uint 32 x ->
  Z.lor (Z.shiftl (Z.shiftr x 16) 16) (Z.land x 0xffff) = x.
Proof.
  intros _. change 0xffff with (Z.ones 16).
  apply Z.bits_inj'. intros n Hn.
  rewrite Z.lor_spec, Z.land_spec.
  destruct (Z.lt_ge_cases n 16) as [Hlt | Hge].
  - rewrite Z.shiftl_spec_low by lia.
    rewrite Z.ones_spec_low by lia.
    now rewrite andb_true_r.
  - rewrite Z.shiftl_spec by lia.
    rewrite Z.shiftr_spec by lia.
    rewrite Z.ones_spec_high by lia.
    rewrite andb_false_r, orb_false_r.
    f_equal. lia.
Qed.

(** ** Flags *)

Lemma set_overflowed_on (f : FunctionHeaderFlag.t) :
  FunctionHeaderFlag.overflowed (FunctionHeaderFlag.set_overflowed f) = true.
Proof.
  unfold FunctionHeaderFlag.overflowed, FunctionHeaderFlag.set_overflowed.
  rewrite Z.lor_spec. change (Z.testbit (Z.shiftl 1 3) 3) with true.
  apply orb_true_r.
Qed.

(** ** setLargeHeaderOffset and getLargeHeaderOffset *)

Lemma setLargeHeaderOffset_overflowed (x : Z) (this : SmallFuncHeader.t) :
  FunctionHeaderFlag.overflowed
    (SmallFuncHeader.flags (SmallFuncHeader.setLargeHeaderOffset x this)) = true.
Proof. destruct this. apply set_overflowed_on. Qed.

Lemma setLargeHeaderOffset_fields (x : Z) (this : SmallFuncHeader.t) :
  uint 32 x ->
  SmallFuncHeader.offset (SmallFuncHeader.setLargeHeaderOffset x this)
  = Z.land x 0xffff
  /\ SmallFuncHeader.infoOffset (SmallFuncHeader.setLargeHeaderOffset x this)
     = Z.shiftr x 16.
Proof.
  intros Hx. destruct this.
  unfold SmallFuncHeader.setLargeHeaderOffset, SmallFuncHeader.assign.
  cbn [SmallFuncHeader.put SmallFuncHeader.with_flags SmallFuncHeader.offset
       SmallFuncHeader.infoOffset SmallFuncHeader.flags].
  change (SmallFuncHeader.width f_offset) with 25.
  change (SmallFuncHeader.width f_infoOffset) with 25.
  pose proof (low16_range x). pose proof (high16_range x Hx).
  split; apply store_small; lia.
Qed.

Lemma get_set_LargeHeaderOffset (x : Z) (this : SmallFuncHeader.t) :
  uint 32 x ->
  SmallFuncHeader.getLargeHeaderOffset
    (SmallFuncHeader.setLargeHeaderOffset x this) = Some x.
Proof.
  intros Hx. unfold SmallFuncHeader.getLargeHeaderOffset.
  rewrite setLargeHeaderOffset_overflowed.
  destruct (setLargeHeaderOffset_fields x this Hx) as [-> ->].
  rewrite join_split by assumption.
  f_equal. apply store_small. exact Hx.
Qed.

(** ** The field loop of the constructor *)

Lemma shiftl_1_bits (d : FieldDesc) :
  In d FUNC_HEADER_FIELDS -> Z.shiftl 1 (bits d) = 2 ^ bits d /\ 0 <= bits d.
Proof.
  cbn [In FUNC_HEADER_FIELDS].
  intros H. repeat (destruct H as [<- | H]; [now split |]). contradiction.
Qed.

(** A field above its width makes the loop leave through
    [setLargeHeaderOffset(large.infoOffset)]. *)
Lemma copy_fields_exceeds (ds : list FieldDesc) (large : FunctionHeader.t) :
  Exists (fun d => FunctionHeader.get (name d) large > Z.shiftl 1 (bits d) - 1) ds ->
  forall this, exists this',
    SmallFuncHeader.copy_fields ds large this
    = inl (SmallFuncHeader.setLargeHeaderOffset
             (FunctionHeader.infoOffset large) this').
Proof.
  induction ds as [| d ds IH]; intros Hex this.
  - inversion Hex.
  - cbn [SmallFuncHeader.copy_fields]. unfold SmallFuncHeader.CHECK_COPY_FIELD.
    destruct (Z.gtb_spec (FunctionHeader.get (name d) large)
                         (Z.shiftl 1 (bits d) - 1)) as [Hgt | Hle].
    + now exists this.
    + apply IH. inversion Hex; subst; [lia | assumption].
Qed.

(** Fields within their widths are all copied: the loop falls through. *)
Lemma copy_fields_fits (ds : list FieldDesc) (large : FunctionHeader.t) :
  Forall (fun d => FunctionHeader.get (name d) large <= Z.shiftl 1 (bits d) - 1) ds ->
  forall this,
    SmallFuncHeader.copy_fields ds large this
    = inr (fold_left
             (fun s d => SmallFuncHeader.assign
                           (name d) (FunctionHeader.get (name d) large) s)
             ds this).
Proof.
  induction ds as [| d ds IH]; intros Hall this.
  - reflexivity.
  - cbn [SmallFuncHeader.copy_fields fold_left].
    unfold SmallFuncHeader.CHECK_COPY_FIELD.
    inversion Hall; subst.
    destruct (Z.gtb_spec (FunctionHeader.get (name d) large)
                         (Z.shiftl 1 (bits d) - 1)) as [Hgt | Hle]; [lia |].
    now apply IH.
Qed.

Lemma exceeds_shiftl (large : FunctionHeader.t) :
  exceeds large ->
  Exists (fun d => FunctionHeader.get (name d) large > Z.shiftl 1 (bits d) - 1)
         FUNC_HEADER_FIELDS.
Proof.
  unfold exceeds. rewrite !Exists_exists.
  intros [d [Hin Hd]]. exists d. split; [assumption |].
  destruct (shiftl_1_bits d Hin) as [-> _]. exact Hd.
Qed.

Lemma fits_shiftl (large : FunctionHeader.t) :
  fits large ->
  Forall (fun d => FunctionHeader.get (name d) large <= Z.shiftl 1 (bits d) - 1)
         FUNC_HEADER_FIELDS.
Proof.
  unfold fits. rewrite !Forall_forall.
  intros H d Hin. destruct (shiftl_1_bits d Hin) as [-> _]. now apply H.
Qed.

Lemma wf_infoOffset (large : FunctionHeader.t) :
  FunctionHeader.wf large -> uint 32 (FunctionHeader.infoOffset large).
Proof.
  intros [H _]. rewrite Forall_forall in H.
  apply (H (V 32 32 f_infoOffset 25)). cbn. tauto.
Qed.

(** The constructor on a header with a field above its width. *)
Lemma SmallFuncHeader_exceeds (large : FunctionHeader.t) :
  uint 32 (FunctionHeader.infoOffset large) ->
  exceeds large ->
  exists small,
    SmallFuncHeader.SmallFuncHeader large = Some small
    /\ FunctionHeaderFlag.overflowed (SmallFuncHeader.flags small) = true
    /\ SmallFuncHeader.getLargeHeaderOffset small
       = Some (FunctionHeader.infoOffset large).
Proof.
  intros Hinfo Hex. unfold SmallFuncHeader.SmallFuncHeader.
  destruct (copy_fields_exceeds _ large (exceeds_shiftl large Hex)
              (SmallFuncHeader.with_flags (FunctionHeader.flags large)
                                          SmallFuncHeader.zeroed))
    as [this' ->].
  eexists. split; [reflexivity |]. split.
  - apply setLargeHeaderOffset_overflowed.
  - now apply get_set_LargeHeaderOffset.
Qed.

Ltac split_Forall :=
  repeat match goal with
         | H : Forall _ (_ :: _) |- _ => inversion H; clear H; subst
         | H : Forall _ [] |- _ => clear H
         end.

(** ** Compact function headers *)

(** C1: a logical FunctionHeader whose overflowed flag is clear and whose
    nine fields are each at most 2^w - 1 for the field's compact width w is
    turned by the SmallFuncHeader constructor into a record whose overflowed
    flag is clear, whose flags are those of the original and whose every
    field equals the corresponding field of the original. *)
Theorem C1_small_header_keeps_fields (large : FunctionHeader.t) :
  FunctionHeader.wf large ->
  FunctionHeaderFlag.overflowed (FunctionHeader.flags large) = false ->
  fits large ->
  exists small,
    SmallFuncHeader.SmallFuncHeader large = Some small
    /\ FunctionHeaderFlag.overflowed (SmallFuncHeader.flags small) = false
    /\ SmallFuncHeader.flags small = FunctionHeader.flags large
    /\ forall n, SmallFuncHeader.get n small = FunctionHeader.get n large.
Proof.
  intros [Hwf _] Hflag Hfits.
  unfold SmallFuncHeader.SmallFuncHeader.
  rewrite (copy_fields_fits _ large (fits_shiftl large Hfits)).
  destruct large as [o p b f i fr e r w fl].
  unfold fits, FUNC_HEADER_FIELDS in Hfits. unfold uint, FUNC_HEADER_FIELDS in Hwf.
  split_Forall.
  cbn [FUNC_HEADER_FIELDS fold_left SmallFuncHeader.assign SmallFuncHeader.put
       SmallFuncHeader.with_flags SmallFuncHeader.zeroed name bits api_type
       FunctionHeader.get FunctionHeader.flags FunctionHeader.offset
       FunctionHeader.paramCount FunctionHeader.bytecodeSizeInBytes
       FunctionHeader.functionName FunctionHeader.infoOffset
       FunctionHeader.frameSize FunctionHeader.environmentSize
       FunctionHeader.highestReadCacheIndex FunctionHeader.highestWriteCacheIndex
       SmallFuncHeader.offset SmallFuncHeader.paramCount
       SmallFuncHeader.bytecodeSizeInBytes SmallFuncHeader.functionName
       SmallFuncHeader.infoOffset SmallFuncHeader.frameSize
       SmallFuncHeader.environmentSize SmallFuncHeader.highestReadCacheIndex
       SmallFuncHeader.highestWriteCacheIndex SmallFuncHeader.flags] in *.
  rewrite Hflag.
  eexists. split; [reflexivity |].
  cbn [SmallFuncHeader.flags]. split; [assumption |]. split; [reflexivity |].
  intros n; destruct n;
    cbn [SmallFuncHeader.get FunctionHeader.get
         FunctionHeader.offset
         FunctionHeader.paramCount FunctionHeader.bytecodeSizeInBytes
         FunctionHeader.functionName FunctionHeader.infoOffset
         FunctionHeader.frameSize FunctionHeader.environmentSize
         FunctionHeader.highestReadCacheIndex FunctionHeader.highestWriteCacheIndex
         SmallFuncHeader.offset SmallFuncHeader.paramCount
         SmallFuncHeader.bytecodeSizeInBytes SmallFuncHeader.functionName
         SmallFuncHeader.infoOffset SmallFuncHeader.frameSize
         SmallFuncHeader.environmentSize SmallFuncHeader.highestReadCacheIndex
         SmallFuncHeader.highestWriteCacheIndex];
    match goal with
    | |- store (SmallFuncHeader.width ?k) _ = _ =>
        let w := eval cbv in (SmallFuncHeader.width k) in
        change (SmallFuncHeader.width k) with w
    end;
    apply store_small; lia.
Qed.

Lemma largest_compact_wf : FunctionHeader.wf largest_compact.
Proof.
  split; [| unfold uint; cbn; lia].
  repeat constructor; unfold uint; cbn; lia.
Qed.

Lemma largest_compact_fits : fits largest_compact.
Proof. repeat constructor; cbn; lia. Qed.

Lemma C1_witness :
  exists small,
    SmallFuncHeader.SmallFuncHeader largest_compact = Some small
    /\ FunctionHeaderFlag.overflowed (SmallFuncHeader.flags small) = false
    /\ SmallFuncHeader.flags small = FunctionHeader.flags largest_compact
    /\ forall n, SmallFuncHeader.get n small = FunctionHeader.get n largest_compact.
Proof.
  apply (C1_small_header_keeps_fields largest_compact).
  - exact largest_compact_wf.
  - reflexivity.
  - exact largest_compact_fits.
Defined.

(** C2: a logical FunctionHeader with at least one field above its compact
    width is turned by the constructor into a record whose overflowed flag is
    set and whose getLargeHeaderOffset() is the header's infoOffset, the
    value the constructor passes to setLargeHeaderOffset; and for every
    32-bit x, splitting x into the offset and infoOffset fields and joining
    them again gives x. *)
Theorem C2_overflow_offset_roundtrip
    (large : FunctionHeader.t) (x : Z) (this : SmallFuncHeader.t) :
  FunctionHeader.wf large ->
  exceeds large ->
  uint 32 x ->
  (exists small,
      SmallFuncHeader.SmallFuncHeader large = Some small
      /\ FunctionHeaderFlag.overflowed (SmallFuncHeader.flags small) = true
      /\ SmallFuncHeader.getLargeHeaderOffset small
         = Some (FunctionHeader.infoOffset large))
  /\ SmallFuncHeader.getLargeHeaderOffset
       (SmallFuncHeader.setLargeHeaderOffset x this) = Some x.
Proof.
  intros Hwf Hex Hx. split.
  - apply SmallFuncHeader_exceeds; [now apply wf_infoOffset | assumption].
  - now apply get_set_LargeHeaderOffset.
Qed.

Lemma wide_frame_wf : FunctionHeader.wf wide_frame.
Proof.
  split; [| unfold uint; cbn; lia].
  repeat constructor; unfold uint; cbn; lia.
Qed.

Lemma wide_frame_exceeds : exceeds wide_frame.
Proof.
  unfold exceeds. apply Exists_exists.
  exists (V 32 32 f_frameSize 7). split; [cbn; tauto | cbn; lia].
Qed.

Lemma C2_witness :
  (exists small,
      SmallFuncHeader.SmallFuncHeader wide_frame = Some small
      /\ FunctionHeaderFlag.overflowed (SmallFuncHeader.flags small) = true
      /\ SmallFuncHeader.getLargeHeaderOffset small
         = Some (FunctionHeader.infoOffset wide_frame))
  /\ SmallFuncHeader.getLargeHeaderOffset
       (SmallFuncHeader.setLargeHeaderOffset 0xFFFF0001 SmallFuncHeader.zeroed)
     = Some 0xFFFF0001.
Proof.
  apply (C2_overflow_offset_roundtrip wide_frame 0xFFFF0001 SmallFuncHeader.zeroed).
  - exact wide_frame_wf.
  - exact wide_frame_exceeds.
  - unfold uint. lia.
Defined.

Example wide_frame_small :
  SmallFuncHeader.SmallFuncHeader wide_frame
  = Some (SmallFuncHeader.mk 0xCDEF 2 3 4 0x89AB 0 0 0 0 8).
Proof. reflexivity. Qed.

(** C10: every FunctionHeader built by the public constructor has offset 0,
    infoOffset 0 and the four flag bits clear; compacting such a header when
    one of its fields is above its compact width gives an overflowed record
    whose large-header offset is 0. *)
Theorem C10_fresh_header_zero_offsets
    (size paramCount frameSize envSize functionNameID hiR hiW : Z) :
  let h := FunctionHeader.FunctionHeader
             size paramCount frameSize envSize functionNameID hiR hiW in
  FunctionHeader.offset h = 0
  /\ FunctionHeader.infoOffset h = 0
  /\ FunctionHeaderFlag.strictMode (FunctionHeader.flags h) = false
  /\ FunctionHeaderFlag.hasExceptionHandler (FunctionHeader.flags h) = false
  /\ FunctionHeaderFlag.hasDebugInfo (FunctionHeader.flags h) = false
  /\ FunctionHeaderFlag.overflowed (FunctionHeader.flags h) = false
  /\ (exceeds h ->
      exists small,
        SmallFuncHeader.SmallFuncHeader h = Some small
        /\ FunctionHeaderFlag.overflowed (SmallFuncHeader.flags small) = true
        /\ SmallFuncHeader.getLargeHeaderOffset small = Some 0).
Proof.
  intros h. repeat (split; [reflexivity |]).
  intros Hex.
  apply (SmallFuncHeader_exceeds h); [| assumption].
  unfold uint. cbn. lia.
Qed.

Lemma C10_witness :
  exists small,
    SmallFuncHeader.SmallFuncHeader
      (FunctionHeader.FunctionHeader 40000 2 3 4 5 6 7) = Some small
    /\ FunctionHeaderFlag.overflowed (SmallFuncHeader.flags small) = true
    /\ SmallFuncHeader.getLargeHeaderOffset small = Some 0.
Proof.
  apply (C10_fresh_header_zero_offsets 40000 2 3 4 5 6 7).
  unfold exceeds. apply Exists_exists.
  exists (V 32 32 f_bytecodeSizeInBytes 15). split; [cbn; tauto | cbn; lia].
Defined.

(** ** Compact string table entries *)

Lemma inline_test (entry : StringTableEntry.t) :
  (StringTableEntry.getOffset entry <? SmallStringTableEntry.INVALID_OFFSET)
  && (StringTableEntry.getLength entry <? SmallStringTableEntry.INVALID_LENGTH)
  = true <-> inline_able entry.
Proof.
  unfold inline_able.
  change SmallStringTableEntry.INVALID_OFFSET with (2 ^ 22).
  change SmallStringTableEntry.INVALID_LENGTH with (2 ^ 8 - 1).
  rewrite andb_true_iff, !Z.ltb_lt. tauto.
Qed.

Lemma SmallStringTableEntry_inline (entry : StringTableEntry.t) (ov : Z) :
  StringTableEntry.wf entry ->
  inline_able entry ->
  SmallStringTableEntry.SmallStringTableEntry entry ov
  = Some (SmallStringTableEntry.mk
            (StringTableEntry.isUTF16 entry) (StringTableEntry.isIdentifier entry)
            (StringTableEntry.getOffset entry) (StringTableEntry.getLength entry)).
Proof.
  intros [Ho Hl] Hin. unfold SmallStringTableEntry.SmallStringTableEntry.
  rewrite (proj2 (inline_test entry) Hin).
  destruct Hin as [Ho' Hl']. unfold uint in *.
  rewrite !store_small by lia. reflexivity.
Qed.

Lemma SmallStringTableEntry_overflow (entry : StringTableEntry.t) (ov : Z) :
  uint 32 ov ->
  ~ inline_able entry ->
  SmallStringTableEntry.SmallStringTableEntry entry ov
  = if ov <? 2 ^ 22
    then Some (SmallStringTableEntry.mk
                 (StringTableEntry.isUTF16 entry)
                 (StringTableEntry.isIdentifier entry)
                 ov (2 ^ 8 - 1))
    else None.
Proof.
  intros Hov Hnot. unfold SmallStringTableEntry.SmallStringTableEntry.
  destruct ((StringTableEntry.getOffset entry <? SmallStringTableEntry.INVALID_OFFSET)
            && (StringTableEntry.getLength entry <? SmallStringTableEntry.INVALID_LENGTH))
    eqn:E.
  - apply inline_test in E. contradiction.
  - change SmallStringTableEntry.INVALID_OFFSET with (2 ^ 22).
    change SmallStringTableEntry.INVALID_LENGTH with (2 ^ 8 - 1).
    destruct (Z.ltb_spec ov (2 ^ 22)) as [Hlt | Hge]; [| reflexivity].
    unfold uint in Hov. rewrite !store_small by lia. reflexivity.
Qed.

(** C3: an entry with offset < 2^22 and length < 2^8 - 1 is stored inline,
    offset and length unchanged, and isOverflowed() is false; for an entry
    that violates either bound the constructed entry has the length 2^8 - 1,
    its offset is the supplied overflow index and isOverflowed() is true.
    A constructed entry is overflowed exactly when its length is 2^8 - 1, and
    is either inline or overflowed, never both. *)
Theorem C3_string_entry_inline_or_overflowed
    (entry : StringTableEntry.t) (overflowOffset : Z) :
  StringTableEntry.wf entry ->
  uint 32 overflowOffset ->
  (inline_able entry ->
   exists small,
     SmallStringTableEntry.SmallStringTableEntry entry overflowOffset = Some small
     /\ SmallStringTableEntry.offset small = StringTableEntry.getOffset entry
     /\ SmallStringTableEntry.length small = StringTableEntry.getLength entry
     /\ SmallStringTableEntry.isOverflowed small = false)
  /\ (~ inline_able entry ->
      (overflowOffset < 2 ^ 22 ->
       exists small,
         SmallStringTableEntry.SmallStringTableEntry entry overflowOffset
         = Some small)
      /\ forall small,
          SmallStringTableEntry.SmallStringTableEntry entry overflowOffset
          = Some small ->
          SmallStringTableEntry.length small = 2 ^ 8 - 1
          /\ SmallStringTableEntry.offset small = overflowOffset
          /\ SmallStringTableEntry.isOverflowed small = true)
  /\ (forall small,
         SmallStringTableEntry.SmallStringTableEntry entry overflowOffset
         = Some small ->
         (SmallStringTableEntry.isOverflowed small = true
          <-> SmallStringTableEntry.length small = 2 ^ 8 - 1)
         /\ (SmallStringTableEntry.isOverflowed small = false
             <-> inline_able entry)).
Proof.
  intros Hwf Hov.
  assert (Hsentinel : forall small,
             SmallStringTableEntry.isOverflowed small = true
             <-> SmallStringTableEntry.length small = 2 ^ 8 - 1).
  { intros small. unfold SmallStringTableEntry.isOverflowed.
    change SmallStringTableEntry.INVALID_LENGTH with (2 ^ 8 - 1).
    apply Z.eqb_eq. }
  assert (Hinline : inline_able entry ->
             exists small,
               SmallStringTableEntry.SmallStringTableEntry entry overflowOffset
               = Some small
               /\ SmallStringTableEntry.offset small
                  = StringTableEntry.getOffset entry
               /\ SmallStringTableEntry.length small
                  = StringTableEntry.getLength entry
               /\ SmallStringTableEntry.isOverflowed small = false).
  { intros Hin. rewrite (SmallStringTableEntry_inline entry _ Hwf Hin).
    eexists. split; [reflexivity |]. repeat split.
    unfold SmallStringTableEntry.isOverflowed.
    cbn [SmallStringTableEntry.length].
    change SmallStringTableEntry.INVALID_LENGTH with (2 ^ 8 - 1).
    apply Z.eqb_neq. destruct Hin. lia. }
  assert (Hover : ~ inline_able entry ->
             forall small,
               SmallStringTableEntry.SmallStringTableEntry entry overflowOffset
               = Some small ->
               SmallStringTableEntry.length small = 2 ^ 8 - 1
               /\ SmallStringTableEntry.offset small = overflowOffset
               /\ SmallStringTableEntry.isOverflowed small = true).
  { intros Hnot small.
    rewrite (SmallStringTableEntry_overflow entry _ Hov Hnot).
    destruct (overflowOffset <? 2 ^ 22); [| discriminate].
    intros [= <-]. repeat split. }
  split; [exact Hinline |]. split.
  - intros Hnot. split; [| now apply Hover].
    intros Hlt. rewrite (SmallStringTableEntry_overflow entry _ Hov Hnot).
    apply Z.ltb_lt in Hlt. rewrite Hlt. now eexists.
  - intros small Hsmall. split; [apply Hsentinel |].
    split.
    + intros Hfalse.
      destruct (Z_lt_dec (StringTableEntry.getOffset entry) (2 ^ 22)) as [Ho | Ho];
        [destruct (Z_lt_dec (StringTableEntry.getLength entry) (2 ^ 8 - 1))
          as [Hl | Hl] |];
        [now split | |];
        (assert (Hnot : ~ inline_able entry) by (unfold inline_able; lia);
         destruct (Hover Hnot small Hsmall) as [_ [_ Htrue]]; congruence).
    + intros Hin. destruct (Hinline Hin) as [small' [Hsmall' [_ [_ Hfalse]]]].
      congruence.
Qed.

Lemma C3_witness :
  (exists small,
      SmallStringTableEntry.SmallStringTableEntry short_entry 3 = Some small
      /\ SmallStringTableEntry.offset small = 12
      /\ SmallStringTableEntry.length small = 7
      /\ SmallStringTableEntry.isOverflowed small = false)
  /\ (forall small,
         SmallStringTableEntry.SmallStringTableEntry long_entry 3 = Some small ->
         SmallStringTableEntry.length small = 2 ^ 8 - 1
         /\ SmallStringTableEntry.offset small = 3
         /\ SmallStringTableEntry.isOverflowed small = true).
Proof.
  split.
  - apply (C3_string_entry_inline_or_overflowed short_entry 3).
    + split; unfold uint; cbn; lia.
    + unfold uint; lia.
    + split; cbn; lia.
  - apply (C3_string_entry_inline_or_overflowed long_entry 3).
    + split; unfold uint; cbn; lia.
    + unfold uint; lia.
    + unfold inline_able; cbn; lia.
Defined.

Example long_entry_small :
  SmallStringTableEntry.SmallStringTableEntry long_entry 3
  = Some (SmallStringTableEntry.mk true false 3 255).
Proof. reflexivity. Qed.

(** C9: the offset field of a constructed SmallStringTableEntry is below
    2^22, so it never holds INVALID_OFFSET; the overflowed entry is
    constructed exactly when the supplied overflow index is below 2^22 (the
    assertion), and then the index is stored without truncation: the offset
    of the overflowed entry is the supplied index. *)
Theorem C9_overflow_index_stored_exactly
    (entry : StringTableEntry.t) (overflowOffset : Z) :
  StringTableEntry.wf entry ->
  uint 32 overflowOffset ->
  (forall small,
      SmallStringTableEntry.SmallStringTableEntry entry overflowOffset
      = Some small ->
      0 <= SmallStringTableEntry.offset small < 2 ^ 22
      /\ SmallStringTableEntry.offset small
         <> SmallStringTableEntry.INVALID_OFFSET)
  /\ (~ inline_able entry ->
      (SmallStringTableEntry.SmallStringTableEntry entry overflowOffset <> None
       <-> overflowOffset < SmallStringTableEntry.INVALID_OFFSET)
      /\ (overflowOffset < SmallStringTableEntry.INVALID_OFFSET ->
          exists small,
            SmallStringTableEntry.SmallStringTableEntry entry overflowOffset
            = Some small
            /\ SmallStringTableEntry.isOverflowed small = true
            /\ SmallStringTableEntry.offset small = overflowOffset)).
Proof.
  intros Hwf Hov. split.
  - intros small Hsmall.
    assert (H : 0 <= SmallStringTableEntry.offset small < 2 ^ 22).
    { unfold SmallStringTableEntry.SmallStringTableEntry in Hsmall.
      destruct (_ && _) in Hsmall.
      - injection Hsmall as <-. apply store_range. lia.
      - destruct (_ <? _) in Hsmall; [| discriminate].
        injection Hsmall as <-. apply store_range. lia. }
    split; [exact H |].
    change SmallStringTableEntry.INVALID_OFFSET with (2 ^ 22). lia.
  - intros Hnot.
    change SmallStringTableEntry.INVALID_OFFSET with (2 ^ 22).
    rewrite (SmallStringTableEntry_overflow entry _ Hov Hnot).
    destruct (Z.ltb_spec overflowOffset (2 ^ 22)) as [Hlt | Hge].
    + split; [split; [intros _; assumption | discriminate] |].
      intros _. eexists. split; [reflexivity |]. split; reflexivity.
    + split; [split; [intros H; now elim H | lia] | lia].
Qed.

Lemma C9_witness :
  exists small,
    SmallStringTableEntry.SmallStringTableEntry long_entry (2 ^ 22 - 1)
    = Some small
    /\ SmallStringTableEntry.isOverflowed small = true
    /\ SmallStringTableEntry.offset small = 2 ^ 22 - 1.
Proof.
  apply (C9_overflow_index_stored_exactly long_entry (2 ^ 22 - 1)).
  - split; unfold uint; cbn; lia.
  - unfold uint; lia.
  - unfold inline_able; cbn; lia.
  - change SmallStringTableEntry.INVALID_OFFSET with (2 ^ 22). lia.
Defined.

Example index_past_assert :
  SmallStringTableEntry.SmallStringTableEntry long_entry (2 ^ 22) = None.
Proof. reflexivity. Qed.

(** ** Magic numbers *)

(** C7: DELTA_MAGIC is the bitwise complement of the 64-bit MAGIC: the two
    differ in each of the 64 bits and share none, so they are distinct, and
    for either expected form exactly one of the two is the valid magic. *)
Theorem C7_delta_magic_is_complement :
  DELTA_MAGIC = 0xE0E6FC3EFC43E039
  /\ Z.lxor MAGIC DELTA_MAGIC = Z.ones 64
  /\ Z.land MAGIC DELTA_MAGIC = 0
  /\ DELTA_MAGIC <> MAGIC
  /\ forall form,
      (magicFor form = MAGIC /\ magicFor form <> DELTA_MAGIC)
      \/ (magicFor form = DELTA_MAGIC /\ magicFor form <> MAGIC).
Proof.
  assert (E : DELTA_MAGIC = 0xE0E6FC3EFC43E039) by reflexivity.
  split; [exact E |].
  rewrite E. unfold MAGIC.
  split; [reflexivity |]. split; [reflexivity |]. split; [discriminate |].
  intros [|]; cbn [magicFor]; rewrite ?E; unfold MAGIC;
    [left | right]; split; (reflexivity || discriminate).
Qed.

(** ** Sizes and padding of the headers *)

Lemma encodeLE_length (n : nat) (v : Z) : List.length (encodeLE n v) = n.
Proof.
  revert v. induction n as [| n IH]; intros v; cbn [encodeLE List.length].
  - reflexivity.
  - now rewrite IH.
Qed.

Lemma sizeof_BytecodeFileHeader : BytecodeFileHeader.sizeof = 96%nat.
Proof. reflexivity. Qed.

(** The serialized header ends with the padding member. *)
Lemma serialize_ends_with_padding (h : BytecodeFileHeader.t) :
  exists front,
    BytecodeFileHeader.serialize h = front ++ BytecodeFileHeader.padding h
    /\ List.length front
       = (8 + 4 + List.length (BytecodeFileHeader.sourceHash h) + 14 * 4 + 1)%nat.
Proof.
  unfold BytecodeFileHeader.serialize, BytecodeFileHeader.members.
  cbn [flat_map fst BytecodeFileHeader.member_bytes].
  rewrite app_nil_r.
  repeat rewrite app_assoc.
  eexists. split; [reflexivity |].
  repeat rewrite length_app. repeat rewrite encodeLE_length. lia.
Qed.

(** C6: the size of BytecodeFileHeader is an exact multiple of 32 bytes, as
    is the length of a serialized header; the size of SmallFuncHeader divides
    32; and a header made by the constructor has seven padding bytes, all
    zero, which are the last seven bytes of its serialization. *)
Theorem C6_header_sizes_and_padding
    (magic version : Z) (sourceHash : list byte)
    (fileLength globalCodeIndex functionCount stringCount identifierCount
     stringTableBytes stringStorageSize regExpCount regExpStorageSize
     arrayBufferSize objKeyBufferSize objValueBufferSize
     cjsModuleCount debugInfoOffset : Z)
    (options : BytecodeOptions.t) :
  List.length sourceHash = SHA1_NUM_BYTES ->
  let h := BytecodeFileHeader.BytecodeFileHeader
             magic version sourceHash fileLength globalCodeIndex functionCount
             stringCount identifierCount stringTableBytes stringStorageSize
             regExpCount regExpStorageSize arrayBufferSize objKeyBufferSize
             objValueBufferSize cjsModuleCount debugInfoOffset options in
  (BytecodeFileHeader.sizeof mod 32 = 0)%nat
  /\ List.length (BytecodeFileHeader.serialize h) = BytecodeFileHeader.sizeof
  /\ 32 mod sizeof_SmallFuncHeader = 0
  /\ BytecodeFileHeader.padding h = [x00; x00; x00; x00; x00; x00; x00]
  /\ skipn (BytecodeFileHeader.sizeof - 7) (BytecodeFileHeader.serialize h)
     = [x00; x00; x00; x00; x00; x00; x00].
Proof.
  intros Hhash h.
  destruct (serialize_ends_with_padding h) as [front [Eq Hfront]].
  assert (Hsrc : List.length (BytecodeFileHeader.sourceHash h) = 20%nat).
  { subst h. cbn [BytecodeFileHeader.BytecodeFileHeader
                    BytecodeFileHeader.sourceHash].
    unfold BytecodeFileHeader.std_copy.
    rewrite length_app, length_skipn, repeat_length, Hhash.
    reflexivity. }
  rewrite Hsrc in Hfront.
  assert (Hpad : BytecodeFileHeader.padding h = [x00; x00; x00; x00; x00; x00; x00])
    by reflexivity.
  rewrite sizeof_BytecodeFileHeader.
  split; [reflexivity |]. split.
  - rewrite Eq, length_app, Hfront, Hpad. reflexivity.
  - split; [reflexivity |]. split; [exact Hpad |].
    rewrite Eq, Hpad.
    replace (96 - 7)%nat with (List.length front + 0)%nat by (rewrite Hfront; reflexivity).
    rewrite skipn_app, Nat.add_0_r, skipn_all, app_nil_l.
    replace (List.length front - List.length front)%nat with 0%nat by lia.
    reflexivity.
Qed.

Lemma C6_witness :
  let h := BytecodeFileHeader.BytecodeFileHeader
             MAGIC BYTECODE_VERSION (repeat xff SHA1_NUM_BYTES)
             200 0 1 0 0 0 0 0 0 0 0 0 (-1) 0 BytecodeOptions.BytecodeOptions in
  (BytecodeFileHeader.sizeof mod 32 = 0)%nat
  /\ List.length (BytecodeFileHeader.serialize h) = BytecodeFileHeader.sizeof
  /\ 32 mod sizeof_SmallFuncHeader = 0
  /\ BytecodeFileHeader.padding h = [x00; x00; x00; x00; x00; x00; x00]
  /\ skipn (BytecodeFileHeader.sizeof - 7) (BytecodeFileHeader.serialize h)
     = [x00; x00; x00; x00; x00; x00; x00].
Proof.
  apply (C6_header_sizes_and_padding
           MAGIC BYTECODE_VERSION (repeat xff SHA1_NUM_BYTES)
           200 0 1 0 0 0 0 0 0 0 0 0 (-1) 0 BytecodeOptions.BytecodeOptions).
  reflexivity.
Defined.

Example sizeof_SmallFuncHeader_16 : sizeof_SmallFuncHeader = 16.
Proof. reflexivity. Qed.

(** ** The population pass *)

Lemma skipn_nth (bs : list byte) (k : nat) :
  (skipn k bs = [] /\ nth k bs x00 = x00 /\ skipn (S k) bs = [])
  \/ skipn k bs = nth k bs x00 :: skipn (S k) bs.
Proof.
  revert k. induction bs as [| b bs IH]; intros k.
  - left. destruct k; repeat split.
  - destruct k as [| k]; [now right |].
    cbn [nth]. change (skipn (S k) (b :: bs)) with (skipn k bs).
    change (skipn (S (S k)) (b :: bs)) with (skipn (S k) bs).
    apply IH.
Qed.

(** [loadLE] returns the little-endian value of the bytes it names (absent
    bytes read as zero) and records exactly their indices. *)
Lemma loadLE_spec (bytes : list byte) (n k : nat) (st : PassState) :
  loadLE bytes (Z.of_nat k) n st
  = (inr (decodeLE (firstn n (skipn k bytes))),
     mkState (cursor st) (interpreted st ++ indices k n)).
Proof.
  revert k st. induction n as [| n IH]; intros k st.
  - destruct st. cbn. unfold ret, indices. cbn. now rewrite app_nil_r.
  - cbn [loadLE]. unfold bind at 1. unfold loadByte.
    replace (Z.of_nat k + 1) with (Z.of_nat (S k)) by lia.
    unfold bind at 1. rewrite IH. unfold ret. cbn [cursor interpreted].
    rewrite Nat2Z.id. unfold indices. cbn [seq map].
    rewrite <- app_assoc. cbn [app].
    f_equal. f_equal.
    destruct (skipn_nth bytes k) as [[E0 [E1 E2]] | E].
    + rewrite E0, E1, E2. now destruct n.
    + rewrite E. reflexivity.
Qed.

Lemma loadMember_spec (bytes : list byte) (m : HeaderMember) (st : PassState) :
  loadMember bytes m st
  = (inr (member bytes m),
     mkState (cursor st) (interpreted st ++ member_indices m)).
Proof. unfold loadMember, member, member_indices. apply loadLE_spec. Qed.

(** Every byte of a member lies inside the header. *)
Lemma member_indices_in_header (m : HeaderMember) :
  Forall (fun i => 0 <= i < Z.of_nat BytecodeFileHeader.sizeof) (member_indices m).
Proof.
  rewrite sizeof_BytecodeFileHeader.
  destruct m; unfold member_indices, indices; cbn; repeat constructor; lia.
Qed.

Lemma reads_ret {A : Type} (P : Z -> Prop) (a : A) : reads P (ret a).
Proof. intros st H. exact H. Qed.

Lemma reads_fail {A : Type} (P : Z -> Prop) (e : FormatError) :
  reads P (@fail A e).
Proof. intros st H. exact H. Qed.

Lemma reads_bind {A B : Type} (P : Z -> Prop) (m : Pass A) (k : A -> Pass B) :
  reads P m -> (forall a, reads P (k a)) -> reads P (bind m k).
Proof.
  intros Hm Hk st H. unfold bind.
  specialize (Hm st H).
  destruct (m st) as [[e | a] st']; cbn [snd] in *.
  - exact Hm.
  - now apply Hk.
Qed.

Lemma reads_getCursor (P : Z -> Prop) : reads P getCursor.
Proof. intros st H. exact H. Qed.

Lemma reads_advance (P : Z -> Prop) (n : Z) : reads P (advance n).
Proof. intros st H. exact H. Qed.

Lemma reads_loadMember (P : Z -> Prop) (bytes : list byte) (m : HeaderMember) :
  Forall P (member_indices m) -> reads P (loadMember bytes m).
Proof.
  intros Hm st H. rewrite loadMember_spec. cbn [snd interpreted].
  apply Forall_app. now split.
Qed.

Lemma reads_if {A : Type} (P : Z -> Prop) (b : bool) (m1 m2 : Pass A) :
  reads P m1 -> reads P m2 -> reads P (if b then m1 else m2).
Proof. now destruct b. Qed.

Lemma reads_visit (P : Z -> Prop) (bytes : list byte) (sec : Section_)
      (elemSize count : Z) :
  reads P (visit bytes sec elemSize count).
Proof.
  unfold visit. apply reads_bind; [apply reads_getCursor |].
  intros cur. apply reads_if; [apply reads_fail |].
  apply reads_bind; [apply reads_advance |]. intros _. apply reads_ret.
Qed.

Ltac reads_step :=
  first
    [ apply reads_ret
    | apply reads_fail
    | apply reads_visit
    | apply reads_advance
    | apply reads_loadMember; apply member_indices_in_header
    | apply reads_if
    | apply reads_bind; [| intros ? ] ].

Lemma reads_visitCJSModuleTable (bytes : list byte) :
  reads (fun i => 0 <= i < Z.of_nat BytecodeFileHeader.sizeof)
        (visitCJSModuleTable bytes).
Proof. unfold visitCJSModuleTable. repeat reads_step. Qed.

Lemma reads_visitSections (sz : Z) (bytes : list byte) :
  reads (fun i => 0 <= i < Z.of_nat BytecodeFileHeader.sizeof)
        (visitSections sz bytes).
Proof.
  unfold visitSections.
  repeat first [ apply reads_visitCJSModuleTable | reads_step ].
Qed.

(** The pass interprets bytes of the header only, and none at all when the
    buffer is shorter than the header: every interpreted index is inside
    the buffer. *)
Lemma populateFromBuffer_reads_inside
      (sz : Z) (bytes : list byte) (form : BytecodeForm) :
  Forall (fun i => 0 <= i < Z.of_nat (List.length bytes))
         (snd (populateFromBuffer sz bytes form)).
Proof.
  unfold populateFromBuffer, populate. cbn [snd].
  destruct (Z.ltb_spec (Z.of_nat (List.length bytes))
                       (Z.of_nat BytecodeFileHeader.sizeof)) as [Hlt | Hge].
  - constructor.
  - apply Forall_impl
      with (P := fun i => 0 <= i < Z.of_nat BytecodeFileHeader.sizeof);
      [intros i Hi; lia |].
    match goal with
    | |- Forall _ (interpreted (snd (?m ?st))) =>
        cut (reads (fun i => 0 <= i < Z.of_nat BytecodeFileHeader.sizeof) m)
    end.
    { intros H. apply H. constructor. }
    repeat first [ apply reads_visitSections | reads_step ].
Qed.

(** *** Header and form validation *)

(** The pass on a buffer that holds a whole header. *)
Lemma populate_header_checks (sz : Z) (bytes : list byte) (form : BytecodeForm) :
  (BytecodeFileHeader.sizeof <= List.length bytes)%nat ->
  populate sz bytes form (mkState 0 [])
  = if negb (member bytes h_magic =? magicFor form)
    then (inl MagicMismatch, mkState 0 (member_indices h_magic))
    else if negb (member bytes h_version =? BYTECODE_VERSION)
         then (inl VersionMismatch,
               mkState 0 (member_indices h_magic ++ member_indices h_version))
         else visitSections sz bytes
                (mkState (Z.of_nat BytecodeFileHeader.sizeof)
                         (member_indices h_magic ++ member_indices h_version)).
Proof.
  intros Hlen. unfold populate.
  destruct (Z.ltb_spec (Z.of_nat (List.length bytes))
                       (Z.of_nat BytecodeFileHeader.sizeof)) as [Hlt | _]; [lia |].
  unfold bind at 1. rewrite loadMember_spec. cbn [cursor interpreted app].
  destruct (negb (member bytes h_magic =? magicFor form)); [reflexivity |].
  unfold bind at 1. rewrite loadMember_spec. cbn [cursor interpreted].
  destruct (negb (member bytes h_version =? BYTECODE_VERSION)); [reflexivity |].
  unfold bind at 1. unfold advance. cbn [cursor interpreted].
  reflexivity.
Qed.

Lemma magicFor_injective (form form' : BytecodeForm) :
  magicFor form = magicFor form' -> form = form'.
Proof. destruct form, form'; (reflexivity || discriminate). Qed.

(** A short buffer is truncated, whatever its first bytes are. *)
Lemma populateFromBuffer_short (sz : Z) (bytes : list byte) (form : BytecodeForm) :
  (List.length bytes < BytecodeFileHeader.sizeof)%nat ->
  populateFromBuffer sz bytes form = (inl (TruncatedBuffer s_header), []).
Proof.
  intros Hlen. unfold populateFromBuffer, populate.
  destruct (Z.ltb_spec (Z.of_nat (List.length bytes))
                       (Z.of_nat BytecodeFileHeader.sizeof)) as [_ | Hge]; [| lia].
  reflexivity.
Qed.

(** C4 (as amended): for a buffer at least as long as the header whose
    magic differs from the magic of the expected form, or whose version
    differs from BYTECODE_VERSION, populateFromBuffer fails with a magic or
    version mismatch, having interpreted no byte outside the magic and
    version members and built no view; a mismatching magic is always
    reported as a magic mismatch, so the magic of the other form is. *)
Theorem C4_mismatch_fails_first
    (sz : Z) (bytes : list byte) (form : BytecodeForm) :
  (BytecodeFileHeader.sizeof <= List.length bytes)%nat ->
  member bytes h_magic <> magicFor form
  \/ member bytes h_version <> BYTECODE_VERSION ->
  (exists e idx,
      populateFromBuffer sz bytes form = (inl e, idx)
      /\ (e = MagicMismatch \/ e = VersionMismatch)
      /\ Forall (fun i => 0 <= i < 8 + 4) idx)
  /\ (member bytes h_magic <> magicFor form ->
      populateFromBuffer sz bytes form
      = (inl MagicMismatch, [0; 1; 2; 3; 4; 5; 6; 7]))
  /\ (forall form', form' <> form -> member bytes h_magic = magicFor form' ->
      fst (populateFromBuffer sz bytes form) = inl MagicMismatch).
Proof.
  intros Hlen Hbad.
  assert (Hmagic : member bytes h_magic <> magicFor form ->
                   populateFromBuffer sz bytes form
                   = (inl MagicMismatch, [0; 1; 2; 3; 4; 5; 6; 7])).
  { intros Hne. unfold populateFromBuffer.
    rewrite (populate_header_checks sz bytes form Hlen).
    apply Z.eqb_neq in Hne. rewrite Hne. reflexivity. }
  split; [| split; [exact Hmagic |]].
  - destruct (Z.eq_dec (member bytes h_magic) (magicFor form)) as [Heq | Hne].
    + destruct Hbad as [Hbad | Hver]; [contradiction |].
      exists VersionMismatch, (member_indices h_magic ++ member_indices h_version).
      unfold populateFromBuffer.
      rewrite (populate_header_checks sz bytes form Hlen).
      apply Z.eqb_eq in Heq. apply Z.eqb_neq in Hver. rewrite Heq, Hver.
      split; [reflexivity |]. split; [now right |].
      cbn. repeat constructor; lia.
    + exists MagicMismatch, [0; 1; 2; 3; 4; 5; 6; 7].
      split; [now apply Hmagic |]. split; [now left |].
      repeat constructor; lia.
  - intros form' Hother Heq. rewrite Hmagic; [reflexivity |].
    rewrite Heq. intros Hsame. apply Hother. now apply magicFor_injective.
Qed.

Lemma C4_witness :
  (exists e idx,
      populateFromBuffer 8 (BytecodeFileHeader.serialize resolved_header) Delta
      = (inl e, idx)
      /\ (e = MagicMismatch \/ e = VersionMismatch)
      /\ Forall (fun i => 0 <= i < 8 + 4) idx)
  /\ (member (BytecodeFileHeader.serialize resolved_header) h_magic
      <> magicFor Delta ->
      populateFromBuffer 8 (BytecodeFileHeader.serialize resolved_header) Delta
      = (inl MagicMismatch, [0; 1; 2; 3; 4; 5; 6; 7]))
  /\ (forall form', form' <> Delta ->
      member (BytecodeFileHeader.serialize resolved_header) h_magic
      = magicFor form' ->
      fst (populateFromBuffer 8 (BytecodeFileHeader.serialize resolved_header)
                              Delta)
      = inl MagicMismatch).
Proof.
  apply (C4_mismatch_fails_first
           8 (BytecodeFileHeader.serialize resolved_header) Delta).
  - vm_compute. lia.
  - left. vm_compute. discriminate.
Defined.

(** C4 (as stated) fails on a buffer shorter than the header: the first 50
    bytes of a file bear the Execution magic, Delta form is expected, and
    the failure is a truncation, not a magic or version mismatch. *)
Lemma C4_counterexample :
  let bytes := firstn 50 (BytecodeFileHeader.serialize resolved_header) in
  member bytes h_magic = magicFor Execution
  /\ member bytes h_magic <> magicFor Delta
  /\ populateFromBuffer 8 bytes Delta = (inl (TruncatedBuffer s_header), [])
  /\ fst (populateFromBuffer 8 bytes Delta) <> inl MagicMismatch
  /\ fst (populateFromBuffer 8 bytes Delta) <> inl VersionMismatch.
Proof.
  cbv zeta.
  split; [vm_compute; reflexivity |].
  split; [vm_compute; discriminate |].
  rewrite populateFromBuffer_short by (vm_compute; lia).
  split; [reflexivity |]. split; discriminate.
Qed.

(** *** Truncation *)

Lemma visitSections_functionHeaders_truncated
      (sz : Z) (bytes : list byte) (st : PassState) :
  member bytes h_functionCount * sizeof_SmallFuncHeader
  > Z.of_nat (List.length bytes) - cursor st ->
  fst (visitSections sz bytes st) = inl (TruncatedBuffer s_functionHeaders).
Proof.
  intros Hbig. unfold visitSections.
  unfold bind at 1. rewrite loadMember_spec.
  unfold bind at 1. unfold visit. unfold bind at 1. unfold getCursor.
  cbn [cursor interpreted].
  destruct (Z.gtb_spec (member bytes h_functionCount * sizeof_SmallFuncHeader)
                       (Z.of_nat (List.length bytes) - cursor st)) as [_ | Hle];
    [reflexivity | lia].
Qed.

(** C5: a buffer shorter than the header fails with a truncation error; a
    buffer with an intact header whose function-header array is declared
    larger than the bytes after the header fails at that section; and no
    byte at an index outside the buffer is ever interpreted. *)
Theorem C5_truncated_buffers_rejected
    (sz : Z) (bytes : list byte) (form : BytecodeForm) :
  ((List.length bytes < BytecodeFileHeader.sizeof)%nat ->
   populateFromBuffer sz bytes form = (inl (TruncatedBuffer s_header), []))
  /\ ((BytecodeFileHeader.sizeof <= List.length bytes)%nat ->
      member bytes h_magic = magicFor form ->
      member bytes h_version = BYTECODE_VERSION ->
      member bytes h_functionCount * sizeof_SmallFuncHeader
      > Z.of_nat (List.length bytes) - Z.of_nat BytecodeFileHeader.sizeof ->
      fst (populateFromBuffer sz bytes form)
      = inl (TruncatedBuffer s_functionHeaders))
  /\ Forall (fun i => 0 <= i < Z.of_nat (List.length bytes))
            (snd (populateFromBuffer sz bytes form)).
Proof.
  split; [apply populateFromBuffer_short |].
  split; [| apply populateFromBuffer_reads_inside].
  intros Hlen Hmagic Hversion Hbig.
  unfold populateFromBuffer. cbn [fst].
  rewrite (populate_header_checks sz bytes form Hlen).
  rewrite Hmagic, Hversion, !Z.eqb_refl. cbn [negb].
  now apply visitSections_functionHeaders_truncated.
Qed.

Lemma C5_witness :
  populateFromBuffer 8 (firstn 95 resolved_file) Execution
  = (inl (TruncatedBuffer s_header), [])
  /\ fst (populateFromBuffer 8 (BytecodeFileHeader.serialize resolved_header)
                             Execution)
     = inl (TruncatedBuffer s_functionHeaders).
Proof.
  split.
  - apply (C5_truncated_buffers_rejected 8 (firstn 95 resolved_file) Execution).
    vm_compute. lia.
  - apply (C5_truncated_buffers_rejected
             8 (BytecodeFileHeader.serialize resolved_header) Execution).
    + vm_compute. lia.
    + vm_compute. reflexivity.
    + vm_compute. reflexivity.
    + vm_compute. reflexivity.
Defined.

(** *** The module table *)

Lemma bind_inr {A B : Type} (m : Pass A) (k : A -> Pass B)
      (st st' : PassState) (b : B) :
  bind m k st = (inr b, st') ->
  exists a st1, m st = (inr a, st1) /\ k a st1 = (inr b, st').
Proof.
  unfold bind. destruct (m st) as [[e | a] st1]; [discriminate |].
  intros H. now exists a, st1.
Qed.

(** A section that is accepted lies inside the buffer, and its view starts
    at the cursor. *)
Lemma visit_inr (bytes : list byte) (sec : Section_) (elemSize count : Z)
      (st st' : PassState) (a : ArrayRef) :
  visit bytes sec elemSize count st = (inr a, st') ->
  a = mkArrayRef (Some (cursor st)) count elemSize
  /\ cursor st + count * elemSize <= Z.of_nat (List.length bytes)
  /\ st' = mkState (cursor st + count * elemSize) (interpreted st).
Proof.
  unfold visit. unfold bind at 1. unfold getCursor.
  destruct (Z.gtb_spec (count * elemSize)
                       (Z.of_nat (List.length bytes) - cursor st)) as [Hgt | Hle];
    [discriminate |].
  unfold bind, advance, ret. intros [= <- <-].
  repeat split. lia.
Qed.

Ltac invert_pass :=
  repeat match goal with
         | H : bind _ _ _ = (inr _, _) |- _ =>
             apply bind_inr in H;
             let a := fresh "a" in
             let st := fresh "st" in
             let Hm := fresh "Hm" in
             destruct H as (a & st & Hm & H); cbv beta in H
         | H : (if ?c then fail _ else _) _ = (inr _, _) |- _ =>
             destruct c; [discriminate H |]
         end.

Lemma visitCJSModuleTable_inr (bytes : list byte) (st st' : PassState)
      (modules : ArrayRef * ArrayRef) :
  visitCJSModuleTable bytes st = (inr modules, st') ->
  let c := signed 32 (member bytes h_cjsModuleCount) in
  (c < 0
   /\ fst modules = emptyRef 8
   /\ snd modules = mkArrayRef (Some (cursor st)) (- c) 4
   /\ cursor st + 4 * (- c) <= Z.of_nat (List.length bytes))
  \/ (0 <= c
      /\ fst modules = mkArrayRef (Some (cursor st)) c 8
      /\ snd modules = emptyRef 4
      /\ cursor st + 8 * c <= Z.of_nat (List.length bytes)).
Proof.
  intros H c. unfold visitCJSModuleTable in H.
  apply bind_inr in H. destruct H as (raw & st1 & Hraw & H).
  rewrite loadMember_spec in Hraw. injection Hraw as <- <-.
  fold c in H.
  destruct (Z.ltb_spec c 0) as [Hneg | Hpos];
    apply bind_inr in H; destruct H as (a & st2 & Hvisit & H);
    apply visit_inr in Hvisit; destruct Hvisit as (-> & Hin & _);
    unfold ret in H; injection H as <- _; cbn [cursor fst snd] in *.
  - left. repeat split; [assumption | lia].
  - right. repeat split; [assumption | lia].
Qed.

Lemma visitSections_modules (sz : Z) (bytes : list byte) (st st' : PassState)
      (fields : BytecodeFileFields.t) :
  visitSections sz bytes st = (inr fields, st') ->
  exists st1 modules,
    visitCJSModuleTable bytes st1 = (inr modules, st')
    /\ BytecodeFileFields.cjsModuleTable fields = fst modules
    /\ BytecodeFileFields.cjsModuleTableStatic fields = snd modules.
Proof.
  unfold visitSections. intros H. invert_pass.
  unfold ret in H. injection H as <- <-.
  eexists _, _. split; [eassumption |]. now split.
Qed.

(** C8: in every parsed file the sign of the header's signed 32-bit
    cjsModuleCount selects the module table: a negative count populates the
    flat array of 32-bit function indices, with as many entries as the
    magnitude, and leaves the array of pairs default; any other count
    populates the array of (moduleId, functionIndex) pairs and leaves the
    flat array default.  Exactly one of the two views is populated, and it
    lies inside the buffer. *)
Theorem C8_module_count_sign_selects_table
    (sz : Z) (bytes : list byte) (form : BytecodeForm)
    (fields : BytecodeFileFields.t) (idx : list Z) :
  populateFromBuffer sz bytes form = (inr fields, idx) ->
  let c := signed 32 (member bytes h_cjsModuleCount) in
  (c < 0 ->
   BytecodeFileFields.cjsModuleTable fields = emptyRef 8
   /\ exists off,
       BytecodeFileFields.cjsModuleTableStatic fields
       = mkArrayRef (Some off) (- c) 4
       /\ off + 4 * (- c) <= Z.of_nat (List.length bytes))
  /\ (0 <= c ->
      BytecodeFileFields.cjsModuleTableStatic fields = emptyRef 4
      /\ exists off,
          BytecodeFileFields.cjsModuleTable fields = mkArrayRef (Some off) c 8
          /\ off + 8 * c <= Z.of_nat (List.length bytes))
  /\ xorb (populated (BytecodeFileFields.cjsModuleTable fields))
          (populated (BytecodeFileFields.cjsModuleTableStatic fields)) = true.
Proof.
  intros H c.
  assert (Hpass : exists st st', visitSections sz bytes st = (inr fields, st')).
  { unfold populateFromBuffer in H.
    destruct (populate sz bytes form (mkState 0 [])) as [r st'] eqn:E.
    cbn [fst snd] in H. injection H as -> _.
    unfold populate in E.
    destruct (Z.of_nat (List.length bytes) <? Z.of_nat BytecodeFileHeader.sizeof);
      [discriminate E |].
    invert_pass. eauto. }
  destruct Hpass as (st & st' & Hpass).
  apply visitSections_modules in Hpass.
  destruct Hpass as (st1 & modules & Hmod & -> & ->).
  apply visitCJSModuleTable_inr in Hmod. fold c in Hmod.
  destruct Hmod as [(Hc & -> & -> & Hin) | (Hc & -> & -> & Hin)].
  - split; [intros _ | split; [lia | reflexivity]].
    split; [reflexivity |]. now exists (cursor st1).
  - split; [lia | split; [intros _ | reflexivity]].
    split; [reflexivity |]. now exists (cursor st1).
Qed.

Lemma C8_witness :
  exists fields,
    fst (populateFromBuffer 8 resolved_file Execution) = inr fields
    /\ BytecodeFileFields.cjsModuleTable fields = emptyRef 8
    /\ exists off,
        BytecodeFileFields.cjsModuleTableStatic fields
        = mkArrayRef (Some off) 1 4
        /\ off + 4 <= 116.
Proof.
  eexists. split; [vm_compute; reflexivity |].
  apply (C8_module_count_sign_selects_table
           8 resolved_file Execution _
           (snd (populateFromBuffer 8 resolved_file Execution)));
    vm_compute; reflexivity.
Defined.

Example unresolved_file_parses :
  populateFromBuffer 8 unresolved_file Execution
  = (inr (BytecodeFileFields.mk
            (Some 0)
            (mkArrayRef (Some 96) 1 16) (mkArrayRef (Some 112) 0 4)
            (mkArrayRef (Some 112) 0 4) (mkArrayRef (Some 112) 0 8)
            (mkArrayRef (Some 112) 0 1) (mkArrayRef (Some 112) 0 1)
            (mkArrayRef (Some 112) 0 1) (mkArrayRef (Some 112) 0 1)
            (mkArrayRef (Some 112) 0 8) (mkArrayRef (Some 112) 0 1)
            (mkArrayRef (Some 112) 2 8) (emptyRef 4)),
     [0; 1; 2; 3; 4; 5; 6; 7; 8; 9; 10; 11; 40; 41; 42; 43; 44; 45; 46; 47;
      48; 49; 50; 51; 52; 53; 54; 55; 56; 57; 58; 59; 68; 69; 70; 71;
      72; 73; 74; 75; 76; 77; 78; 79; 60; 61; 62; 63; 64; 65; 66; 67;
      80; 81; 82; 83]).
Proof. vm_compute. reflexivity. Qed.


(** * Further properties of the records *)

(** ** Assignments to the bit-fields *)

Lemma get_put (m n : FieldName) (v : Z) (s : SmallFuncHeader.t) :
  SmallFuncHeader.get n (SmallFuncHeader.put m v s)
  = if FieldName_eq_dec m n then v else SmallFuncHeader.get n s.
Proof. destruct s, m, n; reflexivity. Qed.

Lemma flags_assign (m : FieldName) (v : Z) (s : SmallFuncHeader.t) :
  SmallFuncHeader.flags (SmallFuncHeader.assign m v s) = SmallFuncHeader.flags s.
Proof. destruct s, m; reflexivity. Qed.

Lemma get_assign (m n : FieldName) (v : Z) (s : SmallFuncHeader.t) :
  SmallFuncHeader.get n (SmallFuncHeader.assign m v s)
  = if FieldName_eq_dec m n
    then store (SmallFuncHeader.width m) v
    else SmallFuncHeader.get n s.
Proof. unfold SmallFuncHeader.assign. apply get_put. Qed.

Lemma get_with_flags (n : FieldName) (f : FunctionHeaderFlag.t)
      (s : SmallFuncHeader.t) :
  SmallFuncHeader.get n (SmallFuncHeader.with_flags f s) = SmallFuncHeader.get n s.
Proof. destruct s, n; reflexivity. Qed.

Lemma width_nonneg (n : FieldName) : 0 <= SmallFuncHeader.width n.
Proof. destruct n; cbv; discriminate. Qed.

Lemma width_of_desc (d : FieldDesc) :
  In d FUNC_HEADER_FIELDS -> SmallFuncHeader.width (name d) = bits d.
Proof.
  cbn [In FUNC_HEADER_FIELDS].
  intros H. repeat (destruct H as [<- | H]; [reflexivity |]). contradiction.
Qed.

(** [setLargeHeaderOffset] touches the flag byte and the two reused fields
    only. *)
Lemma get_setLargeHeaderOffset (n : FieldName) (x : Z) (s : SmallFuncHeader.t) :
  reused n = false ->
  SmallFuncHeader.get n (SmallFuncHeader.setLargeHeaderOffset x s)
  = SmallFuncHeader.get n s.
Proof.
  intros Hn. unfold SmallFuncHeader.setLargeHeaderOffset.
  rewrite !get_assign, get_with_flags.
  destruct n; (discriminate Hn || reflexivity).
Qed.

Lemma flags_setLargeHeaderOffset (x : Z) (s : SmallFuncHeader.t) :
  SmallFuncHeader.flags (SmallFuncHeader.setLargeHeaderOffset x s)
  = FunctionHeaderFlag.set_overflowed (SmallFuncHeader.flags s).
Proof. destruct s. reflexivity. Qed.

(** ** Outcomes of the field loop *)

Lemma exceeds_iff_shiftl (large : FunctionHeader.t) :
  exceeds large
  <-> Exists (fun d => FunctionHeader.get (name d) large > Z.shiftl 1 (bits d) - 1)
             FUNC_HEADER_FIELDS.
Proof.
  split; [apply exceeds_shiftl |].
  unfold exceeds. rewrite !Exists_exists.
  intros [d [Hin Hd]]. exists d. split; [assumption |].
  destruct (shiftl_1_bits d Hin) as [<- _]. exact Hd.
Qed.

Lemma fits_iff_shiftl (large : FunctionHeader.t) :
  fits large
  <-> Forall (fun d => FunctionHeader.get (name d) large <= Z.shiftl 1 (bits d) - 1)
             FUNC_HEADER_FIELDS.
Proof.
  split; [apply fits_shiftl |].
  unfold fits. rewrite !Forall_forall.
  intros H d Hin. destruct (shiftl_1_bits d Hin) as [<- _]. now apply H.
Qed.

Lemma fits_not_exceeds (large : FunctionHeader.t) :
  fits large -> exceeds large -> False.
Proof.
  unfold fits, exceeds. rewrite Forall_forall, Exists_exists.
  intros Hall [d [Hin Hd]]. specialize (Hall d Hin). lia.
Qed.

(** The loop either returns early, from a record with the flags it was
    given and because of a field above its width, or falls through with
    those flags after finding every field within its width. *)
Lemma copy_fields_outcome (ds : list FieldDesc) (large : FunctionHeader.t) :
  forall this,
    match SmallFuncHeader.copy_fields ds large this with
    | inl done =>
        Exists (fun d => FunctionHeader.get (name d) large
                         > Z.shiftl 1 (bits d) - 1) ds
        /\ exists this',
            done = SmallFuncHeader.setLargeHeaderOffset
                     (FunctionHeader.infoOffset large) this'
            /\ SmallFuncHeader.flags this' = SmallFuncHeader.flags this
    | inr this' =>
        Forall (fun d => FunctionHeader.get (name d) large
                         <= Z.shiftl 1 (bits d) - 1) ds
        /\ SmallFuncHeader.flags this' = SmallFuncHeader.flags this
    end.
Proof.
  induction ds as [| d ds IH]; intros this.
  - cbn. now split.
  - cbn [SmallFuncHeader.copy_fields]. unfold SmallFuncHeader.CHECK_COPY_FIELD.
    destruct (Z.gtb_spec (FunctionHeader.get (name d) large)
                         (Z.shiftl 1 (bits d) - 1)) as [Hgt | Hle].
    + split; [left; lia |]. now exists this.
    + specialize (IH (SmallFuncHeader.assign
                        (name d) (FunctionHeader.get (name d) large) this)).
      destruct (SmallFuncHeader.copy_fields ds large _) as [done | this'].
      * destruct IH as [Hex [this' [-> Hfl]]].
        split; [now right |]. exists this'. split; [reflexivity |].
        now rewrite Hfl, flags_assign.
      * destruct IH as [Hall Hfl]. split; [constructor; [lia | assumption] |].
        now rewrite Hfl, flags_assign.
Qed.

(** The constructor, case by case. *)
Lemma SmallFuncHeader_cases (large : FunctionHeader.t) :
  (exceeds large
   /\ exists this',
       SmallFuncHeader.SmallFuncHeader large
       = Some (SmallFuncHeader.setLargeHeaderOffset
                 (FunctionHeader.infoOffset large) this')
       /\ SmallFuncHeader.flags this' = FunctionHeader.flags large)
  \/ (fits large
      /\ exists this',
          SmallFuncHeader.SmallFuncHeader large
          = (if FunctionHeaderFlag.overflowed (FunctionHeader.flags large)
             then None else Some this')
          /\ SmallFuncHeader.flags this' = FunctionHeader.flags large).
Proof.
  unfold SmallFuncHeader.SmallFuncHeader.
  pose proof (copy_fields_outcome FUNC_HEADER_FIELDS large
                (SmallFuncHeader.with_flags (FunctionHeader.flags large)
                                            SmallFuncHeader.zeroed)) as H.
  destruct (SmallFuncHeader.copy_fields FUNC_HEADER_FIELDS large _)
    as [done | this'].
  - left. destruct H as [Hex [this' [-> Hfl]]].
    split; [now apply exceeds_iff_shiftl |]. now exists this'.
  - right. destruct H as [Hall Hfl].
    split; [now apply fits_iff_shiftl |]. exists this'.
    cbn [SmallFuncHeader.with_flags SmallFuncHeader.flags] in Hfl.
    rewrite Hfl. now split.
Qed.

(** X1: the constructor of SmallFuncHeader fails its closing assertion
    exactly when every field of the header is within its compact width and
    the header nevertheless carries the overflowed flag; in every other case
    it yields a record. *)
Theorem X1_constructor_asserts_iff_flagged_but_fitting
    (large : FunctionHeader.t) :
  SmallFuncHeader.SmallFuncHeader large = None
  <-> fits large
      /\ FunctionHeaderFlag.overflowed (FunctionHeader.flags large) = true.
Proof.
  destruct (SmallFuncHeader_cases large)
    as [[Hex [this' [-> _]]] | [Hfits [this' [-> _]]]].
  - split; [discriminate |].
    intros [Hfits _]. exfalso. now apply (fits_not_exceeds large).
  - destruct (FunctionHeaderFlag.overflowed (FunctionHeader.flags large)).
    + now split.
    + split; [discriminate | intros [_ H]; discriminate H].
Qed.

(** X2: in a record made by the constructor the overflowed flag is set
    exactly when some field of the original was above its compact width,
    whatever the original's own flag said; so getLargeHeaderOffset() passes
    its assertion on exactly those records. *)
Theorem X2_overflowed_flag_means_exceeds
    (large : FunctionHeader.t) (small : SmallFuncHeader.t) :
  SmallFuncHeader.SmallFuncHeader large = Some small ->
  (FunctionHeaderFlag.overflowed (SmallFuncHeader.flags small) = true
   <-> exceeds large)
  /\ (SmallFuncHeader.getLargeHeaderOffset small <> None <-> exceeds large).
Proof.
  intros Hsmall.
  assert (H : FunctionHeaderFlag.overflowed (SmallFuncHeader.flags small) = true
              <-> exceeds large).
  { destruct (SmallFuncHeader_cases large)
      as [[Hex [this' [E _]]] | [Hfits [this' [E Hfl]]]];
      rewrite E in Hsmall.
    - injection Hsmall as <-. rewrite setLargeHeaderOffset_overflowed.
      now split.
    - destruct (FunctionHeaderFlag.overflowed (FunctionHeader.flags large))
        eqn:Hov; [discriminate |].
      injection Hsmall as <-. rewrite Hfl, Hov.
      split; [discriminate |].
      intros Hex. exfalso. now apply (fits_not_exceeds large). }
  split; [exact H |].
  rewrite <- H. unfold SmallFuncHeader.getLargeHeaderOffset.
  destruct (FunctionHeaderFlag.overflowed (SmallFuncHeader.flags small)).
  - split; [reflexivity | discriminate].
  - split; [intros Hne; now elim Hne | discriminate].
Qed.

Lemma X2_witness :
  (FunctionHeaderFlag.overflowed 8 = true <-> exceeds wide_frame)
  /\ (SmallFuncHeader.getLargeHeaderOffset
        (SmallFuncHeader.mk 0xCDEF 2 3 4 0x89AB 0 0 0 0 8) <> None
      <-> exceeds wide_frame).
Proof.
  apply (X2_overflowed_flag_means_exceeds
           wide_frame (SmallFuncHeader.mk 0xCDEF 2 3 4 0x89AB 0 0 0 0 8)).
  reflexivity.
Defined.

Lemma bit3_only (i : Z) : i <> 3 -> Z.testbit (Z.shiftl 1 3) i = false.
Proof.
  intros Hi. change (Z.shiftl 1 3) with (2 ^ 3).
  apply Z.pow2_bits_false. congruence.
Qed.

(** X3: the constructor carries the flag byte of the original over to the
    compact record in every bit except the overflowed one, in the overflowed
    and in the plain case alike: strictMode, hasExceptionHandler and
    hasDebugInfo of the record are those of the original. *)
Theorem X3_constructor_keeps_other_flags
    (large : FunctionHeader.t) (small : SmallFuncHeader.t) :
  SmallFuncHeader.SmallFuncHeader large = Some small ->
  (forall i, i <> 3 ->
             Z.testbit (SmallFuncHeader.flags small) i
             = Z.testbit (FunctionHeader.flags large) i)
  /\ FunctionHeaderFlag.strictMode (SmallFuncHeader.flags small)
     = FunctionHeaderFlag.strictMode (FunctionHeader.flags large)
  /\ FunctionHeaderFlag.hasExceptionHandler (SmallFuncHeader.flags small)
     = FunctionHeaderFlag.hasExceptionHandler (FunctionHeader.flags large)
  /\ FunctionHeaderFlag.hasDebugInfo (SmallFuncHeader.flags small)
     = FunctionHeaderFlag.hasDebugInfo (FunctionHeader.flags large).
Proof.
  intros Hsmall.
  assert (H : forall i, i <> 3 ->
                        Z.testbit (SmallFuncHeader.flags small) i
                        = Z.testbit (FunctionHeader.flags large) i).
  { intros i Hi.
    destruct (SmallFuncHeader_cases large)
      as [[_ [this' [E Hfl]]] | [_ [this' [E Hfl]]]];
      rewrite E in Hsmall.
    - injection Hsmall as <-.
      rewrite flags_setLargeHeaderOffset, Hfl.
      unfold FunctionHeaderFlag.set_overflowed.
      rewrite Z.lor_spec, (bit3_only i Hi). apply orb_false_r.
    - destruct (FunctionHeaderFlag.overflowed (FunctionHeader.flags large));
        [discriminate |].
      injection Hsmall as <-. now rewrite Hfl. }
  split; [exact H |].
  unfold FunctionHeaderFlag.strictMode, FunctionHeaderFlag.hasExceptionHandler,
    FunctionHeaderFlag.hasDebugInfo.
  repeat split; apply H; discriminate.
Qed.

Lemma X3_witness :
  (forall i, i <> 3 -> Z.testbit 13 i = Z.testbit 5 i)
  /\ FunctionHeaderFlag.strictMode 13 = FunctionHeaderFlag.strictMode 5
  /\ FunctionHeaderFlag.hasExceptionHandler 13
     = FunctionHeaderFlag.hasExceptionHandler 5
  /\ FunctionHeaderFlag.hasDebugInfo 13 = FunctionHeaderFlag.hasDebugInfo 5.
Proof.
  apply (X3_constructor_keeps_other_flags
           flagged_wide (SmallFuncHeader.mk 0x0001 0 0 0 0xFFFF 0 0 0 0 13)).
  reflexivity.
Defined.

(** ** Bit-field widths *)

Lemma in_widths_assign (m : FieldName) (v : Z) (s : SmallFuncHeader.t) :
  in_widths s -> in_widths (SmallFuncHeader.assign m v s).
Proof.
  intros H n. rewrite get_assign.
  destruct (FieldName_eq_dec m n) as [<- | _]; [| apply H].
  apply store_range, width_nonneg.
Qed.

Lemma in_widths_with_flags (f : FunctionHeaderFlag.t) (s : SmallFuncHeader.t) :
  in_widths s -> in_widths (SmallFuncHeader.with_flags f s).
Proof. intros H n. rewrite get_with_flags. apply H. Qed.

Lemma in_widths_zeroed : in_widths SmallFuncHeader.zeroed.
Proof.
  intros n. pose proof (width_nonneg n) as Hw.
  assert (0 < 2 ^ SmallFuncHeader.width n) by now apply Z.pow_pos_nonneg.
  destruct n; cbn [SmallFuncHeader.get SmallFuncHeader.zeroed
                     SmallFuncHeader.offset SmallFuncHeader.paramCount
                     SmallFuncHeader.bytecodeSizeInBytes
                     SmallFuncHeader.functionName SmallFuncHeader.infoOffset
                     SmallFuncHeader.frameSize SmallFuncHeader.environmentSize
                     SmallFuncHeader.highestReadCacheIndex
                     SmallFuncHeader.highestWriteCacheIndex]; lia.
Qed.

Lemma in_widths_setLargeHeaderOffset (x : Z) (s : SmallFuncHeader.t) :
  in_widths s -> in_widths (SmallFuncHeader.setLargeHeaderOffset x s).
Proof.
  intros H. unfold SmallFuncHeader.setLargeHeaderOffset.
  now apply in_widths_assign, in_widths_assign, in_widths_with_flags.
Qed.

Lemma in_widths_copy_fields (ds : list FieldDesc) (large : FunctionHeader.t) :
  forall this,
    in_widths this ->
    match SmallFuncHeader.copy_fields ds large this with
    | inl done => in_widths done
    | inr this' => in_widths this'
    end.
Proof.
  induction ds as [| d ds IH]; intros this Hthis.
  - exact Hthis.
  - cbn [SmallFuncHeader.copy_fields]. unfold SmallFuncHeader.CHECK_COPY_FIELD.
    destruct (_ >? _).
    + now apply in_widths_setLargeHeaderOffset.
    + apply IH. now apply in_widths_assign.
Qed.

(** X4: every compact record the constructor yields holds, in each of its
    nine bit-fields, a value of the field's declared width, whether the
    record is overflowed or not and whatever values the original holds. *)
Theorem X4_constructed_fields_within_widths
    (large : FunctionHeader.t) (small : SmallFuncHeader.t) :
  SmallFuncHeader.SmallFuncHeader large = Some small ->
  forall n, 0 <= SmallFuncHeader.get n small < 2 ^ SmallFuncHeader.width n.
Proof.
  unfold SmallFuncHeader.SmallFuncHeader. intros Hsmall.
  pose proof (in_widths_copy_fields FUNC_HEADER_FIELDS large
                (SmallFuncHeader.with_flags (FunctionHeader.flags large)
                                            SmallFuncHeader.zeroed)
                (in_widths_with_flags _ _ in_widths_zeroed)) as H.
  destruct (SmallFuncHeader.copy_fields FUNC_HEADER_FIELDS large _)
    as [done | this'].
  - injection Hsmall as <-. exact H.
  - destruct (FunctionHeaderFlag.overflowed (SmallFuncHeader.flags this'));
      [discriminate |].
    injection Hsmall as <-. exact H.
Qed.

Lemma X4_witness :
  0 <= SmallFuncHeader.get
         f_infoOffset (SmallFuncHeader.mk 0xCDEF 2 3 4 0x89AB 0 0 0 0 8)
  < 2 ^ SmallFuncHeader.width f_infoOffset.
Proof.
  apply (X4_constructed_fields_within_widths wide_frame). reflexivity.
Defined.

(** ** What an overflowed record still holds *)

Lemma NoDup_app_disjoint {A : Type} (l1 l2 : list A) (a : A) :
  NoDup (l1 ++ l2) -> In a l1 -> In a l2 -> False.
Proof.
  induction l1 as [| x l1 IH]; intros Hnd H1 H2.
  - contradiction.
  - cbn [app] in Hnd. inversion Hnd as [| ? ? Hx Hnd']; subst.
    destruct H1 as [-> | H1].
    + apply Hx. apply in_or_app. now right.
    + now apply IH.
Qed.

Lemma field_names_NoDup : NoDup (map name FUNC_HEADER_FIELDS).
Proof.
  cbn [map FUNC_HEADER_FIELDS name].
  repeat (constructor; [cbn [In]; intuition discriminate |]).
  constructor.
Qed.

Lemma get_copied (large : FunctionHeader.t) (pre : list FieldDesc)
      (this : SmallFuncHeader.t) (n : FieldName) :
  SmallFuncHeader.get n (copied large pre this)
  = if existsb (fun d => if FieldName_eq_dec (name d) n then true else false) pre
    then store (SmallFuncHeader.width n) (FunctionHeader.get n large)
    else SmallFuncHeader.get n this.
Proof.
  unfold copied. induction pre as [| d pre IH] using rev_ind.
  - reflexivity.
  - rewrite fold_left_app, existsb_app. cbn [fold_left existsb].
    rewrite get_assign, IH, orb_false_r.
    destruct (FieldName_eq_dec (name d) n) as [-> | _].
    + now rewrite orb_true_r.
    + now rewrite orb_false_r.
Qed.

Lemma copy_fields_app (large : FunctionHeader.t) (pre rest : list FieldDesc) :
  Forall (fun d => FunctionHeader.get (name d) large <= Z.shiftl 1 (bits d) - 1)
         pre ->
  forall this,
    SmallFuncHeader.copy_fields (pre ++ rest) large this
    = SmallFuncHeader.copy_fields rest large (copied large pre this).
Proof.
  unfold copied.
  induction pre as [| d pre IH]; intros Hall this.
  - reflexivity.
  - inversion Hall; subst.
    cbn [app SmallFuncHeader.copy_fields fold_left].
    unfold SmallFuncHeader.CHECK_COPY_FIELD.
    destruct (Z.gtb_spec (FunctionHeader.get (name d) large)
                         (Z.shiftl 1 (bits d) - 1)) as [Hgt | _]; [lia |].
    now apply IH.
Qed.

Lemma wf_field (large : FunctionHeader.t) (d : FieldDesc) :
  FunctionHeader.wf large -> In d FUNC_HEADER_FIELDS ->
  0 <= FunctionHeader.get (name d) large.
Proof.
  intros [H _] Hin. rewrite Forall_forall in H.
  specialize (H d Hin). unfold uint in H. lia.
Qed.

(** X5: when the constructor meets the first field above its compact
    width, the record it returns still holds the fields declared before
    that one as they were copied, and holds zero in that field and in all
    the fields declared after it; only offset and infoOffset, reused for the
    large header's offset, are excepted. *)
Theorem X5_overflowed_record_copied_prefix_zero_rest
    (large : FunctionHeader.t) (pre post : list FieldDesc) (d : FieldDesc) :
  FunctionHeader.wf large ->
  FUNC_HEADER_FIELDS = pre ++ d :: post ->
  Forall (fun d' => FunctionHeader.get (name d') large <= 2 ^ bits d' - 1) pre ->
  above large d ->
  exists small,
    SmallFuncHeader.SmallFuncHeader large = Some small
    /\ (forall d', In d' pre -> reused (name d') = false ->
                   SmallFuncHeader.get (name d') small
                   = FunctionHeader.get (name d') large)
    /\ (forall d', In d' (d :: post) -> reused (name d') = false ->
                   SmallFuncHeader.get (name d') small = 0).
Proof.
  intros Hwf Hsplit Hpre Hd.
  assert (Hin : forall d', In d' pre \/ In d' (d :: post) ->
                           In d' FUNC_HEADER_FIELDS).
  { intros d' H. rewrite Hsplit. apply in_or_app. exact H. }
  assert (Hpre' : Forall (fun d' => FunctionHeader.get (name d') large
                                    <= Z.shiftl 1 (bits d') - 1) pre).
  { rewrite Forall_forall in *. intros d' Hd'.
    destruct (shiftl_1_bits d' (Hin d' (or_introl Hd'))) as [-> _].
    now apply Hpre. }
  set (this0 := SmallFuncHeader.with_flags (FunctionHeader.flags large)
                                           SmallFuncHeader.zeroed).
  exists (SmallFuncHeader.setLargeHeaderOffset
            (FunctionHeader.infoOffset large) (copied large pre this0)).
  split; [| split].
  - unfold SmallFuncHeader.SmallFuncHeader. fold this0.
    rewrite Hsplit, (copy_fields_app large pre (d :: post) Hpre').
    cbn [SmallFuncHeader.copy_fields]. unfold SmallFuncHeader.CHECK_COPY_FIELD.
    destruct (shiftl_1_bits d (Hin d (or_intror (in_eq d post)))) as [-> _].
    unfold above in Hd.
    destruct (Z.gtb_spec (FunctionHeader.get (name d) large) (2 ^ bits d - 1))
      as [_ | Hle]; [reflexivity | lia].
  - intros d' Hd' Hreused.
    rewrite (get_setLargeHeaderOffset _ _ _ Hreused), get_copied.
    replace (existsb _ pre) with true.
    + rewrite (width_of_desc d' (Hin d' (or_introl Hd'))).
      apply store_small.
      rewrite Forall_forall in Hpre. specialize (Hpre d' Hd').
      pose proof (wf_field large d' Hwf (Hin d' (or_introl Hd'))). lia.
    + symmetry. apply existsb_exists. exists d'. split; [assumption |].
      now destruct (FieldName_eq_dec (name d') (name d')).
  - intros d' Hd' Hreused.
    rewrite (get_setLargeHeaderOffset _ _ _ Hreused), get_copied.
    replace (existsb _ pre) with false.
    + unfold this0. rewrite get_with_flags. now destruct (name d').
    + symmetry. apply not_true_is_false. intros Hex.
      apply existsb_exists in Hex. destruct Hex as [d0 [Hd0 Heq]].
      destruct (FieldName_eq_dec (name d0) (name d')) as [Hname | _];
        [| discriminate].
      pose proof field_names_NoDup as Hnd.
      rewrite Hsplit, map_app in Hnd.
      apply (NoDup_app_disjoint _ _ (name d') Hnd).
      * rewrite <- Hname. now apply in_map.
      * now apply in_map.
Qed.

Lemma X5_witness :
  exists small,
    SmallFuncHeader.SmallFuncHeader wide_frame = Some small
    /\ (forall d',
           In d' [V 32 32 f_offset 25; V 32 32 f_paramCount 7;
                  V 32 32 f_bytecodeSizeInBytes 15; V 32 32 f_functionName 17] ->
           reused (name d') = false ->
           SmallFuncHeader.get (name d') small
           = FunctionHeader.get (name d') wide_frame)
    /\ (forall d',
           In d' [V 32 32 f_infoOffset 25; V 32 32 f_frameSize 7;
                  V 32 8 f_environmentSize 8; V 8 8 f_highestReadCacheIndex 8;
                  V 8 8 f_highestWriteCacheIndex 8] ->
           reused (name d') = false ->
           SmallFuncHeader.get (name d') small = 0).
Proof.
  apply (X5_overflowed_record_copied_prefix_zero_rest
           wide_frame
           [V 32 32 f_offset 25; V 32 32 f_paramCount 7;
            V 32 32 f_bytecodeSizeInBytes 15; V 32 32 f_functionName 17]
           [V 32 32 f_frameSize 7; V 32 8 f_environmentSize 8;
            V 8 8 f_highestReadCacheIndex 8; V 8 8 f_highestWriteCacheIndex 8]
           (V 32 32 f_infoOffset 25)).
  - exact wide_frame_wf.
  - reflexivity.
  - repeat constructor; cbn; lia.
  - unfold above. cbn. lia.
Defined.

(** ** Joining, then splitting *)

Lemma low_bits_only (b n : Z) :
  0 <= b < 2 ^ 16 -> 16 <= n -> Z.testbit b n = false.
Proof.
  intros Hb Hn. rewrite <- (Z.mod_small b (2 ^ 16)) by lia.
  apply Z.mod_pow2_bits_high. lia.
Qed.

Lemma join_low (a b : Z) :
  0 <= b < 2 ^ 16 -> Z.land (Z.lor (Z.shiftl a 16) b) 0xffff = b.
Proof.
  intros Hb. change 0xffff with (Z.ones 16).
  apply Z.bits_inj'. intros n Hn.
  rewrite Z.land_spec, Z.lor_spec.
  destruct (Z.lt_ge_cases n 16) as [Hlt | Hge].
  - rewrite Z.shiftl_spec_low, Z.ones_spec_low by lia.
    now rewrite andb_true_r.
  - rewrite Z.ones_spec_high, (low_bits_only b n Hb Hge) by lia.
    apply andb_false_r.
Qed.

Lemma join_high (a b : Z) :
  0 <= b < 2 ^ 16 -> Z.shiftr (Z.lor (Z.shiftl a 16) b) 16 = a.
Proof.
  intros Hb. apply Z.bits_inj'. intros n Hn.
  rewrite Z.shiftr_spec, Z.lor_spec, Z.shiftl_spec by lia.
  rewrite (low_bits_only b (n + 16) Hb) by lia.
  rewrite orb_false_r. f_equal. lia.
Qed.

Lemma join_range (a b : Z) :
  0 <= a < 2 ^ 16 -> 0 <= b < 2 ^ 16 ->
  0 <= Z.lor (Z.shiftl a 16) b < 2 ^ 32.
Proof.
  intros Ha Hb.
  set (v := Z.lor (Z.shiftl a 16) b).
  assert (Hdiv : v / 2 ^ 16 = a).
  { rewrite <- Z.shiftr_div_pow2 by lia. now apply join_high. }
  assert (Hmod : v mod 2 ^ 16 = b).
  { rewrite <- Z.land_ones by lia. now apply join_low. }
  pose proof (Z.div_mod v (2 ^ 16)) as E.
  rewrite Hdiv, Hmod in E. lia.
Qed.

Lemma set_overflowed_idem (f : FunctionHeaderFlag.t) :
  FunctionHeaderFlag.overflowed f = true ->
  FunctionHeaderFlag.set_overflowed f = f.
Proof.
  unfold FunctionHeaderFlag.overflowed, FunctionHeaderFlag.set_overflowed.
  intros Hf. apply Z.bits_inj'. intros n _.
  rewrite Z.lor_spec.
  destruct (Z.eq_dec n 3) as [-> | Hn].
  - now rewrite Hf.
  - rewrite (bit3_only n Hn). apply orb_false_r.
Qed.

(** X6: on an overflowed record whose offset and infoOffset fields each
    hold a 16-bit value, as setLargeHeaderOffset leaves them,
    getLargeHeaderOffset() returns a 32-bit value, and storing that value
    again with setLargeHeaderOffset gives the same record back. *)
Theorem X6_set_of_get_is_identity (s : SmallFuncHeader.t) :
  FunctionHeaderFlag.overflowed (SmallFuncHeader.flags s) = true ->
  0 <= SmallFuncHeader.offset s < 2 ^ 16 ->
  0 <= SmallFuncHeader.infoOffset s < 2 ^ 16 ->
  exists x,
    SmallFuncHeader.getLargeHeaderOffset s = Some x
    /\ uint 32 x
    /\ SmallFuncHeader.setLargeHeaderOffset x s = s.
Proof.
  intros Hov Hoff Hinfo.
  destruct s as [o p b f i fr e r w fl].
  cbn [SmallFuncHeader.flags SmallFuncHeader.offset SmallFuncHeader.infoOffset]
    in *.
  pose proof (join_range i o Hinfo Hoff) as Hrange.
  exists (Z.lor (Z.shiftl i 16) o).
  split; [| split; [exact Hrange |]].
  - unfold SmallFuncHeader.getLargeHeaderOffset.
    cbn [SmallFuncHeader.flags SmallFuncHeader.offset SmallFuncHeader.infoOffset].
    rewrite Hov. f_equal. now apply store_small.
  - unfold SmallFuncHeader.setLargeHeaderOffset, SmallFuncHeader.assign.
    cbn [SmallFuncHeader.put SmallFuncHeader.with_flags
         SmallFuncHeader.offset SmallFuncHeader.paramCount
         SmallFuncHeader.bytecodeSizeInBytes SmallFuncHeader.functionName
         SmallFuncHeader.infoOffset SmallFuncHeader.frameSize
         SmallFuncHeader.environmentSize SmallFuncHeader.highestReadCacheIndex
         SmallFuncHeader.highestWriteCacheIndex SmallFuncHeader.flags].
    change (SmallFuncHeader.width f_offset) with 25.
    change (SmallFuncHeader.width f_infoOffset) with 25.
    rewrite (join_low i o Hoff), (join_high i o Hoff).
    rewrite (set_overflowed_idem fl Hov).
    rewrite !store_small by lia. reflexivity.
Qed.

Lemma X6_witness :
  exists x,
    SmallFuncHeader.getLargeHeaderOffset
      (SmallFuncHeader.mk 0xCDEF 2 3 4 0x89AB 0 0 0 0 8) = Some x
    /\ uint 32 x
    /\ SmallFuncHeader.setLargeHeaderOffset
         x (SmallFuncHeader.mk 0xCDEF 2 3 4 0x89AB 0 0 0 0 8)
       = SmallFuncHeader.mk 0xCDEF 2 3 4 0x89AB 0 0 0 0 8.
Proof.
  apply (X6_set_of_get_is_identity
           (SmallFuncHeader.mk 0xCDEF 2 3 4 0x89AB 0 0 0 0 8)).
  - reflexivity.
  - cbn. lia.
  - cbn. lia.
Defined.

(** ** The two constructors together *)

(** X7: compacting a FunctionHeader that comes straight from its public
    constructor never fails the closing assertion of the SmallFuncHeader
    constructor, whatever the arguments; the record is overflowed exactly
    when an argument is above its compact width. *)
Theorem X7_fresh_header_always_compacts
    (size paramCount frameSize envSize functionNameID hiR hiW : Z) :
  let h := FunctionHeader.FunctionHeader
             size paramCount frameSize envSize functionNameID hiR hiW in
  exists small,
    SmallFuncHeader.SmallFuncHeader h = Some small
    /\ (FunctionHeaderFlag.overflowed (SmallFuncHeader.flags small) = true
        <-> exceeds h).
Proof.
  intros h.
  destruct (SmallFuncHeader_cases h)
    as [[Hex [this' [E _]]] | [Hfits [this' [E Hfl]]]].
  - eexists. split; [exact E |].
    rewrite setLargeHeaderOffset_overflowed. now split.
  - change (FunctionHeaderFlag.overflowed (FunctionHeader.flags h)) with false
      in E.
    exists this'. split; [exact E |].
    rewrite Hfl. change (FunctionHeaderFlag.overflowed (FunctionHeader.flags h))
      with false.
    split; [discriminate |].
    intros Hex. exfalso. now apply (fits_not_exceeds h).
Qed.

(** ** Compact string entries read back *)

(** X8: a compact string entry carries the UTF-16 and identifier flags of
    the entry it was made from, overflowed or not; and when it is not
    overflowed its offset and length are the original's, so the whole
    original entry can be read off the compact one. *)
Theorem X8_compact_entry_reads_back
    (entry : StringTableEntry.t) (overflowOffset : Z)
    (small : SmallStringTableEntry.t) :
  StringTableEntry.wf entry ->
  SmallStringTableEntry.SmallStringTableEntry entry overflowOffset = Some small ->
  SmallStringTableEntry.isUTF16 small = StringTableEntry.isUTF16 entry
  /\ SmallStringTableEntry.isIdentifier small = StringTableEntry.isIdentifier entry
  /\ (SmallStringTableEntry.isOverflowed small = false ->
      StringTableEntry.mk
        (SmallStringTableEntry.offset small) (SmallStringTableEntry.length small)
        (SmallStringTableEntry.isUTF16 small)
        (SmallStringTableEntry.isIdentifier small)
      = entry).
Proof.
  intros [Ho Hl] Hsmall.
  unfold SmallStringTableEntry.SmallStringTableEntry in Hsmall.
  destruct ((StringTableEntry.getOffset entry <? SmallStringTableEntry.INVALID_OFFSET)
            && (StringTableEntry.getLength entry <? SmallStringTableEntry.INVALID_LENGTH))
    eqn:E.
  - injection Hsmall as <-.
    apply inline_test in E. destruct E as [Ho' Hl']. unfold uint in *.
    cbn [SmallStringTableEntry.isUTF16 SmallStringTableEntry.isIdentifier
         SmallStringTableEntry.offset SmallStringTableEntry.length].
    repeat split. intros _.
    rewrite !store_small by lia. now destruct entry.
  - destruct (overflowOffset <? SmallStringTableEntry.INVALID_OFFSET);
      [| discriminate].
    injection Hsmall as <-. repeat split.
    intros H. discriminate H.
Qed.

Lemma X8_witness :
  SmallStringTableEntry.isUTF16 (SmallStringTableEntry.mk false true 12 7)
  = StringTableEntry.isUTF16 short_entry
  /\ SmallStringTableEntry.isIdentifier (SmallStringTableEntry.mk false true 12 7)
     = StringTableEntry.isIdentifier short_entry
  /\ (SmallStringTableEntry.isOverflowed (SmallStringTableEntry.mk false true 12 7)
      = false ->
      StringTableEntry.mk 12 7 false true = short_entry).
Proof.
  apply (X8_compact_entry_reads_back
           short_entry 3 (SmallStringTableEntry.mk false true 12 7)).
  - split; unfold uint; cbn; lia.
  - reflexivity.
Defined.

(** ** The file header in memory *)

Lemma byte_to_of_Z (v : Z) : byte_to_Z (byte_of_Z v) = v mod 256.
Proof.
  unfold byte_to_Z, byte_of_Z.
  assert (Hr : 0 <= v mod 256 < 256) by (apply Z.mod_pos_bound; lia).
  destruct (Byte.of_N (Z.to_N (v mod 256))) as [b |] eqn:E.
  - apply Byte.to_of_N in E. rewrite E. apply Z2N.id. lia.
  - apply Byte.of_N_None_iff in E. lia.
Qed.

(** Decoding the [n]-byte little-endian image of [v] gives [v] modulo
    [2 ^ (8 n)]. *)
Lemma decode_encode (n : nat) (v : Z) :
  decodeLE (encodeLE n v) = v mod 2 ^ (8 * Z.of_nat n).
Proof.
  revert v. induction n as [| n IH]; intros v.
  - cbn. now rewrite Z.mod_1_r.
  - cbn [encodeLE decodeLE]. rewrite byte_to_of_Z, IH.
    replace (8 * Z.of_nat (S n)) with (8 + 8 * Z.of_nat n) by lia.
    rewrite Z.pow_add_r by lia. change (2 ^ 8) with 256.
    rewrite Z.rem_mul_r by lia. reflexivity.
Qed.

Lemma firstn_length_app {A : Type} (l r : list A) :
  firstn (List.length l) (l ++ r) = l.
Proof.
  induction l as [| x l IH]; cbn [List.length app firstn].
  - now destruct r.
  - now rewrite IH.
Qed.

Lemma skipn_length_app {A : Type} (l r : list A) (k : nat) :
  skipn (List.length l + k) (l ++ r) = skipn k r.
Proof. induction l as [| x l IH]; [reflexivity | exact IH]. Qed.

(** In a sequence of members laid out one after the other, each member's
    bytes start at the sum of the sizes before it. *)
Lemma member_at_offset (f : HeaderMember -> list byte)
      (ms : list (HeaderMember * nat)) (m : HeaderMember) (rest : list byte) :
  (forall p, In p ms -> List.length (f (fst p)) = snd p) ->
  In m (map fst ms) ->
  firstn (List.length (f m))
         (skipn (BytecodeFileHeader.offset_in ms m)
                (flat_map (fun p => f (fst p)) ms ++ rest))
  = f m.
Proof.
  induction ms as [| [m' sz] ms IH]; intros Hlen Hin.
  - contradiction.
  - cbn [flat_map BytecodeFileHeader.offset_in fst].
    rewrite <- app_assoc.
    destruct (HeaderMember_eq_dec m' m) as [-> | Hne].
    + apply firstn_length_app.
    + pose proof (Hlen (m', sz) (in_eq _ _)) as Hsz. cbn [fst snd] in Hsz.
      rewrite <- Hsz, skipn_length_app. apply IH.
      * intros p Hp. apply Hlen. now right.
      * destruct Hin as [Heq | Hin]; [cbn in Heq; contradiction | exact Hin].
Qed.

Lemma store_signed (v : Z) : store 32 (signed 32 v) = store 32 v.
Proof.
  unfold signed. destruct (store 32 v <? 2 ^ (32 - 1)).
  - unfold store. apply Z.mod_mod. lia.
  - unfold store.
    replace (v mod 2 ^ 32 - 2 ^ 32) with (v mod 2 ^ 32 + (-1) * 2 ^ 32) by lia.
    rewrite Z.mod_add by lia. apply Z.mod_mod. lia.
Qed.

Lemma signed_store (v : Z) : signed 32 (store 32 v) = signed 32 v.
Proof.
  unfold signed. replace (store 32 (store 32 v)) with (store 32 v);
    [reflexivity |].
  unfold store. symmetry. apply Z.mod_mod. lia.
Qed.

Lemma store_store (bits v : Z) : 0 <= bits -> store bits (store bits v) = store bits v.
Proof.
  intros H. unfold store. apply Z.mod_mod.
  pose proof (Z.pow_pos_nonneg 2 bits). lia.
Qed.

(** X9: a header made by the constructor from a 20-byte digest, written out
    member after member in the packed little-endian layout of the
    declaration and followed by any bytes, is read back member by member:
    the bytes at each member's offset are that member's bytes, every
    unsigned member read at its offset has the value the constructor
    stored, and cjsModuleCount read as a signed 32-bit value is the stored
    count. *)
Theorem X9_header_members_read_back
    (magic version : Z) (sourceHash : list byte)
    (fileLength globalCodeIndex functionCount stringCount identifierCount
     stringTableBytes stringStorageSize regExpCount regExpStorageSize
     arrayBufferSize objKeyBufferSize objValueBufferSize
     cjsModuleCount debugInfoOffset : Z)
    (options : BytecodeOptions.t) (rest : list byte) :
  List.length sourceHash = SHA1_NUM_BYTES ->
  uint 8 options ->
  let h := BytecodeFileHeader.BytecodeFileHeader
             magic version sourceHash fileLength globalCodeIndex functionCount
             stringCount identifierCount stringTableBytes stringStorageSize
             regExpCount regExpStorageSize arrayBufferSize objKeyBufferSize
             objValueBufferSize cjsModuleCount debugInfoOffset options in
  let bytes := BytecodeFileHeader.serialize h ++ rest in
  (forall m,
      firstn (BytecodeFileHeader.size_of_member m)
             (skipn (BytecodeFileHeader.offsetof m) bytes)
      = BytecodeFileHeader.member_bytes h m)
  /\ (forall m v,
         header_member_value h m = Some v -> m <> h_cjsModuleCount ->
         member bytes m = v)
  /\ signed 32 (member bytes h_cjsModuleCount)
     = BytecodeFileHeader.cjsModuleCount h
  /\ firstn SHA1_NUM_BYTES (skipn 12 bytes) = sourceHash.
Proof.
  intros Hhash Hopt h bytes.
  assert (Hsrc : BytecodeFileHeader.sourceHash h = sourceHash).
  { subst h. cbn [BytecodeFileHeader.BytecodeFileHeader
                    BytecodeFileHeader.sourceHash].
    unfold BytecodeFileHeader.std_copy. rewrite Hhash.
    rewrite skipn_all2 by (rewrite repeat_length; reflexivity).
    apply app_nil_r. }
  assert (Hsize : forall m,
             List.length (BytecodeFileHeader.member_bytes h m)
             = BytecodeFileHeader.size_of_member m).
  { intros m. destruct m; cbn [BytecodeFileHeader.member_bytes];
      rewrite ?encodeLE_length; try reflexivity.
    rewrite Hsrc. exact Hhash. }
  assert (Hat : forall m,
             firstn (BytecodeFileHeader.size_of_member m)
                    (skipn (BytecodeFileHeader.offsetof m) bytes)
             = BytecodeFileHeader.member_bytes h m).
  { intros m. rewrite <- Hsize. subst bytes.
    unfold BytecodeFileHeader.serialize, BytecodeFileHeader.offsetof.
    apply (member_at_offset (BytecodeFileHeader.member_bytes h)).
    - intros p Hp. rewrite Hsize.
      cbn [In BytecodeFileHeader.members] in Hp.
      repeat (destruct Hp as [<- | Hp]; [reflexivity |]). contradiction.
    - destruct m; cbn; tauto. }
  split; [exact Hat |].
  assert (Hmember : forall m,
             member bytes m = decodeLE (BytecodeFileHeader.member_bytes h m)).
  { intros m. unfold member. now rewrite Hat. }
  split; [| split].
  - intros m v Hv Hm. rewrite Hmember.
    destruct m; try discriminate Hv; try (now elim Hm);
      injection Hv as <-;
      cbn [BytecodeFileHeader.member_bytes]; rewrite decode_encode;
      subst h;
      cbn [BytecodeFileHeader.BytecodeFileHeader BytecodeFileHeader.magic
           BytecodeFileHeader.version BytecodeFileHeader.fileLength
           BytecodeFileHeader.globalCodeIndex BytecodeFileHeader.functionCount
           BytecodeFileHeader.stringCount BytecodeFileHeader.identifierCount
           BytecodeFileHeader.stringTableBytes
           BytecodeFileHeader.stringStorageSize BytecodeFileHeader.regExpCount
           BytecodeFileHeader.regExpStorageSize
           BytecodeFileHeader.arrayBufferSize
           BytecodeFileHeader.objKeyBufferSize
           BytecodeFileHeader.objValueBufferSize
           BytecodeFileHeader.debugInfoOffset BytecodeFileHeader.options];
      first [ apply (store_store 64); lia
            | apply (store_store 32); lia
            | apply (store_small 8); exact Hopt ].
  - rewrite Hmember. cbn [BytecodeFileHeader.member_bytes].
    rewrite decode_encode. subst h.
    cbn [BytecodeFileHeader.BytecodeFileHeader BytecodeFileHeader.cjsModuleCount].
    change (signed 32 cjsModuleCount mod 2 ^ (8 * Z.of_nat 4))
      with (store 32 (signed 32 cjsModuleCount)).
    now rewrite store_signed, signed_store.
  - rewrite <- Hsrc. apply (Hat h_sourceHash).
Qed.

Lemma X9_witness :
  let bytes := BytecodeFileHeader.serialize resolved_header ++ [xff; xff] in
  (forall m,
      firstn (BytecodeFileHeader.size_of_member m)
             (skipn (BytecodeFileHeader.offsetof m) bytes)
      = BytecodeFileHeader.member_bytes resolved_header m)
  /\ (forall m v,
         header_member_value resolved_header m = Some v ->
         m <> h_cjsModuleCount ->
         member bytes m = v)
  /\ signed 32 (member bytes h_cjsModuleCount)
     = BytecodeFileHeader.cjsModuleCount resolved_header
  /\ firstn SHA1_NUM_BYTES (skipn 12 bytes) = repeat xff SHA1_NUM_BYTES.
Proof.
  apply (X9_header_members_read_back
           MAGIC BYTECODE_VERSION (repeat xff SHA1_NUM_BYTES)
           116 0 1 0 0 0 0 0 0 0 0 0 (-1) 0 BytecodeOptions.BytecodeOptions
           [xff; xff]).
  - reflexivity.
  - unfold uint, BytecodeOptions.BytecodeOptions. lia.
Defined.

Example resolved_file_function_count : member resolved_file h_functionCount = 1.
Proof. reflexivity. Qed.
